(** * Cover-letter generator: link detection and paginated PDF rendering

    A shallow embedding of the drawing core of [src/main.py]
    ([_find_links_in_text], [_draw_line_with_links],
    [_save_cover_letter_pdf], [_register_font], [_resolve_font_path]) and
    the properties its design document states about it.

    - Python strings are sequences of code points: a character is a code
      point in [N], a text is a [list] of them, an offset into a line is a
      [nat].  Font names and paths, which are only compared and
      concatenated, are [string]s.
    - The two regular expressions are written in a small pattern language
      and run by a backtracking matcher with the priorities of Python's
      [re]; which code points beyond ASCII count as word characters is a
      parameter.
    - Vertical coordinates are [Z]: [font_size] is parsed with [int()], the
      page height (792) and the margin (72) are integral, and the renderer
      only adds and subtracts them, which floating point does exactly as
      long as the values stay below [2^53] in size; a [font_size] beyond
      that is outside the model.  Horizontal coordinates and string widths come
      from the font metrics; they live in an abstract carrier with its own
      addition, so nothing is assumed about their arithmetic.
    - The canvas is the list of operations issued on it.  The fonts
      installed on the host and its file system are a record of
      oracles.
    - The text generator of [src/llm.py] ([_build_prompt], [_get_client],
      [_extract_text_from_file], [generate_cover_letter],
      [generate_filename]) passes its module globals as a state; the
      hosted model and the files it reads are oracles, and the requests
      sent are logged in the state.
    - The handlers of the application ([_handle_paste_event],
      [_generate_cover_letter], [_on_generation_succeeded],
      [_on_generation_failed], [save_preferences], [_update_api_key],
      [_select_file]) are functions on a record of the fields they touch;
      what the application can reach is a run of such steps. *)

From Stdlib Require Import ZArith NArith QArith Ascii String Sorted Lia.
From stdpp Require Import gmap strings list.

Local Open Scope nat_scope.

(** ** Characters and texts *)

Definition char := N.
Definition text := list char.

(** Code points of a literal. *)
Definition T (s : string) : text :=
  map N_of_ascii (list_ascii_of_string s).

Definition chr (a : ascii) : char := N_of_ascii a.

(** [line[i:j]] for [0 <= i], [0 <= j]. *)
Definition slice (s : text) (i j : nat) : text := take (j - i) (drop i s).

(** [s.startswith(p)]. *)
Fixpoint startswith (p s : text) : bool :=
  match p, s with
  | [], _ => true
  | _ :: _, [] => false
  | c :: p', d :: s' => N.eqb c d && startswith p' s'
  end.

(** [\w] restricted to ASCII: letters, digits and the underscore. *)
Definition ascii_word (c : char) : bool :=
  ((48 <=? c) && (c <=? 57) || (65 <=? c) && (c <=? 90)
   || (97 <=? c) && (c <=? 122) || (c =? 95))%N.

(** [str.isspace]: the code points Python treats as whitespace. *)
Definition isspace (c : char) : bool :=
  ((9 <=? c) && (c <=? 13) || (28 <=? c) && (c <=? 32) || (c =? 133)
   || (c =? 160) || (c =? 5760) || (8192 <=? c) && (c <=? 8202)
   || (c =? 8232) || (c =? 8233) || (c =? 8239) || (c =? 8287)
   || (c =? 12288))%N.

(** Line boundaries of [str.splitlines]. *)
Definition is_linebreak (c : char) : bool :=
  ((10 <=? c) && (c <=? 13) || (28 <=? c) && (c <=? 30) || (c =? 133)
   || (c =? 8232) || (c =? 8233))%N.

(** [str.splitlines()]: a CR LF pair is one boundary, and a final boundary
    opens no further empty line.  [cur] is the current line, reversed. *)
Fixpoint splitlines_aux (cur : text) (s : text) : list text :=
  match s with
  | [] => match cur with [] => [] | _ => [rev cur] end
  | c :: s' =>
      if is_linebreak c then
        rev cur ::
          match s' with
          | d :: s'' =>
              if (c =? 13)%N && (d =? 10)%N then splitlines_aux [] s''
              else splitlines_aux [] s'
          | [] => splitlines_aux [] s'
          end
      else splitlines_aux (c :: cur) s'
  end.

Definition splitlines (s : text) : list text := splitlines_aux [] s.

(** [not paragraph.strip()]: nothing but whitespace. *)
Definition strip_is_empty (s : text) : bool := forallb isspace s.

(** ** Python string helpers used by the wrapper and the font lookup *)

(** [str.split()]: maximal runs of non-whitespace.  [cur] is the current
    word, reversed. *)
Fixpoint split_aux (cur : text) (s : text) : list text :=
  match s with
  | [] => match cur with [] => [] | _ => [rev cur] end
  | c :: s' =>
      if isspace c then
        match cur with
        | [] => split_aux [] s'
        | _ => rev cur :: split_aux [] s'
        end
      else split_aux (c :: cur) s'
  end.

Definition split (s : text) : list text := split_aux [] s.

Definition SPACE : char := 32%N.

(** The join of words with a single space between them. *)
Definition join (ws : list text) : text :=
  match ws with
  | [] => []
  | w :: ws' => w ++ flat_map (fun v => SPACE :: v) ws'
  end.

(** [name.replace(old, new)] for a one-character [old]. *)
Fixpoint replace_char (old : ascii) (new : string) (s : string) : string :=
  match s with
  | EmptyString => EmptyString
  | String c s' =>
      if Ascii.eqb c old then (new +:+ replace_char old new s')
      else String c (replace_char old new s')
  end.

(** [name.replace(bs_space, space)] where [bs_space] is a backslash
    followed by a space. *)
Fixpoint unescape_spaces (s : string) : string :=
  match s with
  | EmptyString => EmptyString
  | String c s' =>
      match s' with
      | String d s'' =>
          if Ascii.eqb c "\" && Ascii.eqb d " "
          then String " " (unescape_spaces s'')
          else String c (unescape_spaces s')
      | EmptyString => String c EmptyString
      end
  end.

(** ** The host: installed fonts and the file system *)

Record host : Type := {
  families : list string;            (* tkfontchooser.families() *)
  darwin : bool;                     (* sys.platform.startswith(darwin) *)
  mdfind : string -> list string;    (* stripped output lines of the query *)
  path_exists : string -> bool;      (* Path.exists() *)
  ttfont_loads : string -> string -> bool; (* TTFont(name, path) registers *)
  mkdir_ok : bool;                   (* output_dir.mkdir succeeds *)
  canvas_fonts : list string;        (* names canvas.Canvas(...) registers *)
  save_ok : bool;                    (* c.save() succeeds *)
  project_root : string;
  home : string
}.

Inductive exn : Type :=
  | FileNotFoundError
  | TTFError
  | OSError.

Definition FONT_EXTENSIONS : list string := [".ttf"; ".otf"; ".ttc"]%string.

Definition file_stems (family : string) : list string :=
  [ family;
    replace_char " " "" family;
    replace_char " " "-" family;
    family +:+ " Regular";
    family +:+ "-Regular" ]%string.

(** [_mdfind_font(filename)] *)
Definition _mdfind_font (h : host) (filename : string) : option string :=
  if darwin h then head (filter (fun p => path_exists h p = true) (mdfind h filename))
  else None.

(** [_font_search_dirs()] *)
Definition _font_search_dirs (h : host) : list string :=
  filter (fun d => path_exists h d = true)
    [ project_root h +:+ "/fonts";
      home h +:+ "/Library/Fonts";
      "/Library/Fonts";
      "/System/Library/Fonts";
      "/System/Library/Fonts/Supplemental";
      "/usr/share/fonts";
      "/usr/local/share/fonts" ]%string.

(** First hit of a nested [for] search. *)
Definition first_some {A B} (f : A -> option B) (l : list A) : option B :=
  head (omap f l).

(** [_find_system_font_file(family)] *)
Definition _find_system_font_file (h : host) (family : string) : option string :=
  let stems := file_stems family in
  let spotlight :=
    if darwin h then
      first_some (fun stem =>
        first_some (fun ext => _mdfind_font h (stem +:+ ext)) FONT_EXTENSIONS)
        stems
    else None in
  match spotlight with
  | Some found => Some found
  | None =>
      first_some (fun directory =>
        first_some (fun stem =>
          first_some (fun ext =>
            let candidate := (directory +:+ "/" +:+ stem +:+ ext)%string in
            if path_exists h candidate then Some candidate else None)
            FONT_EXTENSIONS)
          stems)
        (_font_search_dirs h)
  end.

(** [_resolve_font_path()] for the configured [font_name]. *)
Definition _resolve_font_path (h : host) (font_name : string) : exn + string :=
  let available_fonts : gset string :=
    list_to_set (map unescape_spaces (families h)) in
  if bool_decide (font_name ∈ available_fonts) then
    match _find_system_font_file h font_name with
    | Some font_path => inr font_path
    | None => inl FileNotFoundError
    end
  else inl FileNotFoundError.

(** ** Concrete instances used in the examples *)

(** No word characters beyond ASCII. *)
Definition ascii_only : char -> bool := fun _ => false.

(** Fixed-pitch metrics: every character is [font_size] wide. *)
Definition fixed_pitch (s : text) (font_name : string) (font_size : Z) : Z :=
  (font_size * Z.of_nat (length s))%Z.

(** A wrapper that returns the paragraph as one line. *)
Definition one_line (s : text) (font_name : string) (font_size max_width : Z)
    : list text := [s].

(** A short letter: a name, an email address, a blank line, a sentence. *)
Definition letter_sample : text :=
  T "Jane Doe" ++ [10%N] ++ T "jane@example.com" ++ [10; 10]%N
    ++ T "I am writing to apply...".

(** The fonts of the PDF library itself, which it registers when a
    canvas is created. *)
Definition BUILTIN_FONTS : list string :=
  ["Helvetica"; "Symbol"; "ZapfDingbats"]%string.

(** A host with no fonts at all. *)
Definition bare_host : host :=
  {| families := []; darwin := false; mdfind := fun _ => [];
     path_exists := fun _ => false; ttfont_loads := fun _ _ => true;
     mkdir_ok := true; canvas_fonts := BUILTIN_FONTS; save_ok := true;
     project_root := "/app"; home := "/home/user" |}.

(** ** The text generator ([src/llm.py])

    The hosted model, the files it reads and Python's Unicode tables are
    oracles; the module's globals are a record of state. *)

(** [s.lstrip()], [s.rstrip()] and [s.strip()]. *)
Fixpoint lstrip (s : text) : text :=
  match s with
  | c :: s' => if isspace c then lstrip s' else s
  | [] => []
  end.

Definition rstrip (s : text) : text := rev (lstrip (rev s)).

Definition strip (s : text) : text := rstrip (lstrip s).

(** [str.isalnum] restricted to ASCII: letters and digits. *)
Definition ascii_alnum (c : char) : bool :=
  ((48 <=? c) && (c <=? 57) || (65 <=? c) && (c <=? 90)
   || (97 <=? c) && (c <=? 122))%N.

(** [s.split(sep)] for a one-character separator: every piece, the empty
    ones included. *)
Fixpoint split_on (sep : char) (s : text) : list text :=
  match s with
  | [] => [[]]
  | c :: s' =>
      if (c =? sep)%N then [] :: split_on sep s'
      else match split_on sep s' with
           | p :: ps => (c :: p) :: ps
           | [] => [[c]]
           end
  end.

(** [sep.join(parts)] *)
Definition join_with (sep : text) (parts : list text) : text :=
  match parts with
  | [] => []
  | p :: ps => p ++ flat_map (fun q => sep ++ q) ps
  end.

Definition NL : text := [10%N].
Definition UNDERSCORE : char := 95%N.

Inductive llm_exn : Type :=
  | RuntimeError      (* no API key in the environment *)
  | ClientError       (* the client could not be constructed *)
  | ExtractError      (* a file could not be read *)
  | ApiError.         (* the request failed *)

(** The keyword arguments of [client.responses.create]. *)
Record request : Type := {
  rq_model : string;
  rq_max_output_tokens : Z;
  rq_system : text;
  rq_user : text;
  rq_temperature : option Q;
  rq_top_p : option Q
}.

Record llm_env : Type := {
  str_lower : text -> text;                 (* str.lower *)
  uni_alnum : char -> bool;                 (* str.isalnum beyond ASCII *)
  is_pdf : string -> bool;                  (* path.suffix.lower() is .pdf *)
  pdf_pages : string -> option (list (option text));
                                            (* page.extract_text() per page *)
  read_text : string -> option text;        (* path.read_text(...) *)
  new_client : text -> bool;                (* OpenAI(api_key=...) succeeds *)
  responses_create : text -> request -> option text
                                            (* output_text of the response *)
}.

(** The module globals that [_apply_llm_settings] overwrites, and the two
    prompts. *)
Record llm_config : Type := {
  _MODEL_NAME : string;
  _FILENAME_MODEL : string;
  _MAX_TOKENS : Z;
  _FILENAME_MAX_TOKENS : Z;
  _TEMPERATURE : Q;
  _TOP_P : Q;
  _COVER_LETTER_PROMPT : text;
  _FILENAME_PROMPT : text
}.

(** The state of the module: its configuration, the cached client (known
    by the key it was built with), the [OPENAI_API_KEY] of the process
    environment, and the requests issued so far. *)
Record llm_state : Type := {
  config : llm_config;
  _CLIENT : option text;
  api_key_env : option text;
  sent : list request
}.

Definition _MODELS_WITH_SAMPLING : list string := ["gpt-5.1"%string].

Definition isalnum (E : llm_env) (c : char) : bool :=
  if (c <? 128)%N then ascii_alnum c else uni_alnum E c.

(** [_build_prompt(resume_text, job_description, sample_text)] *)
Definition _build_prompt (cfg : llm_config) (resume_text job_description : text)
    (sample_text : option text) : text :=
  let sample_section :=
    match sample_text with
    | Some (c :: s) =>
        T "<cover_letter_sample>" ++ NL ++
        strip (c :: s) ++ NL ++
        T "</cover_letter_sample>" ++ NL ++ NL ++
        T "Use the cover letter sample only as a stylistic reference; do not copy it."
        ++ NL ++ NL
    | _ => []
    end in
  _COVER_LETTER_PROMPT cfg ++ NL ++ NL ++
  T "<resume>" ++ NL ++
  strip resume_text ++ NL ++
  T "</resume>" ++ NL ++ NL ++
  sample_section ++
  T "<job_description>" ++ NL ++
  strip job_description ++ NL ++
  T "</job_description>" ++ NL ++ NL ++
  T "Draft the complete cover letter now.".

(** [_get_client()] *)
Definition _get_client (E : llm_env) (st : llm_state)
    : llm_state * (llm_exn + text) :=
  match _CLIENT st with
  | Some client => (st, inr client)
  | None =>
      match api_key_env st with
      | Some (c :: k) =>
          let api_key := c :: k in
          if new_client E api_key then
            ({| config := config st; _CLIENT := Some api_key;
                api_key_env := api_key_env st; sent := sent st |},
             inr api_key)
          else (st, inl ClientError)
      | _ => (st, inl RuntimeError)
      end
  end.

(** [_extract_text_from_file(file_path)]; [None] when it raises. *)
Definition _extract_text_from_file (E : llm_env) (file_path : string)
    : option text :=
  if is_pdf E file_path then
    match pdf_pages E file_path with
    | Some pages =>
        Some (join_with NL
                (map (fun page => match page with
                                  | Some t => t
                                  | None => []
                                  end) pages))
    | None => None
    end
  else read_text E file_path.

Definition log_request (rq : request) (st : llm_state) : llm_state :=
  {| config := config st; _CLIENT := _CLIENT st;
     api_key_env := api_key_env st; sent := sent st ++ [rq] |}.

(** The request of [generate_cover_letter]: sampling parameters only for
    the models that take them. *)
Definition cover_letter_request (cfg : llm_config) (prompt : text) : request :=
  let sampling := bool_decide (_MODEL_NAME cfg ∈ _MODELS_WITH_SAMPLING) in
  {| rq_model := _MODEL_NAME cfg;
     rq_max_output_tokens := _MAX_TOKENS cfg;
     rq_system := T "You craft concise, personalized cover letters.";
     rq_user := prompt;
     rq_temperature := if sampling then Some (_TEMPERATURE cfg) else None;
     rq_top_p := if sampling then Some (_TOP_P cfg) else None |}.

(** [generate_cover_letter(resume_path, job_description, sample_path)];
    every exception is logged and raised again. *)
Definition generate_cover_letter (E : llm_env) (st : llm_state)
    (resume_path : string) (job_description : text)
    (sample_path : option string) : llm_state * (llm_exn + text) :=
  match _extract_text_from_file E resume_path with
  | None => (st, inl ExtractError)
  | Some resume_text =>
      let sample :=
        match sample_path with
        | Some (String a p) =>
            match _extract_text_from_file E (String a p) with
            | Some t => inr (Some t)
            | None => inl ExtractError
            end
        | _ => inr None
        end in
      match sample with
      | inl e => (st, inl e)
      | inr sample_text =>
          let prompt :=
            _build_prompt (config st) resume_text job_description sample_text in
          match _get_client E st with
          | (st1, inl e) => (st1, inl e)
          | (st1, inr client) =>
              let rq := cover_letter_request (config st1) prompt in
              match responses_create E client rq with
              | Some output_text => (log_request rq st1, inr (strip output_text))
              | None => (log_request rq st1, inl ApiError)
              end
          end
      end
  end.

Definition COVER_LETTER : text := T "cover_letter".

(** The request of [generate_filename]: the job description is cut to its
    first 1000 characters. *)
Definition filename_request (cfg : llm_config) (job_description : text)
    : request :=
  {| rq_model := _FILENAME_MODEL cfg;
     rq_max_output_tokens := _FILENAME_MAX_TOKENS cfg;
     rq_system := _FILENAME_PROMPT cfg;
     rq_user := T "Generate a filename for a cover letter for this job:"
                ++ NL ++ NL ++ take 1000 job_description;
     rq_temperature := None;
     rq_top_p := None |}.

(** [generate_filename(job_description)]; every exception is caught and
    answered with the default name. *)
Definition generate_filename (E : llm_env) (st : llm_state)
    (job_description : text) : llm_state * text :=
  match _get_client E st with
  | (st1, inl _) => (st1, COVER_LETTER)
  | (st1, inr client) =>
      let rq := filename_request (config st1) job_description in
      match responses_create E client rq with
      | None => (log_request rq st1, COVER_LETTER)
      | Some output_text =>
          let raw := str_lower E (strip output_text) in
          (log_request rq st1,
           match raw with
           | [] => COVER_LETTER
           | _ :: _ =>
               let sanitized :=
                 map (fun c => if isalnum E c || (c =? UNDERSCORE)%N
                               then c else UNDERSCORE) raw in
               let sanitized :=
                 join_with [UNDERSCORE]
                   (filter (fun part => part <> [])
                      (split_on UNDERSCORE sanitized)) in
               match take 40 sanitized with
               | [] => COVER_LETTER
               | final_filename => final_filename
               end
           end)
      end
  end.

(** [_get_dynamic_filename()] of the application: [PDF_FILENAME] when no
    job description is stored, the generated base name with [.pdf]
    otherwise. *)
Definition _get_dynamic_filename (E : llm_env) (PDF_FILENAME : text)
    (st : llm_state) (current_job_description : option text)
    : llm_state * text :=
  match current_job_description with
  | Some (c :: jd) =>
      let r := generate_filename E st (c :: jd) in
      (r.1, r.2 ++ T ".pdf")
  | _ => (st, PDF_FILENAME)
  end.

(** No underscore directly after another one; with [after_us] set, none
    at the start either. *)
Fixpoint spaced (after_us : bool) (s : text) : Prop :=
  match s with
  | [] => True
  | c :: s' =>
      if (c =? UNDERSCORE)%N then after_us = false /\ spaced true s'
      else spaced false s'
  end.

(** ** The key file ([_update_api_key] of the application) *)

Definition KEY_PREFIX : text := T "OPENAI_API_KEY=".

(** The loop over the lines of the file and the append that follows it. *)
Definition new_key_lines (api_key : text) (lines : list text) : list text :=
  let '(new_lines, key_found) :=
    foldl (fun acc line =>
             let '(new_lines, key_found) := acc in
             if startswith KEY_PREFIX line
             then (new_lines ++ [KEY_PREFIX ++ api_key], true)
             else (new_lines ++ [line], key_found))
          ([], false) lines in
  if (key_found : bool) then new_lines
  else new_lines ++ [KEY_PREFIX ++ api_key].

(** [_update_api_key(api_key)].  [env_file] is the content of the file,
    [None] when it does not exist; [read_ok] and [write_ok] tell whether
    [read_text] and [write_text] succeed or raise an [OSError].  The
    result is the text written, [None] when an [OSError] was caught, and
    the state of the generator: the new key in the process environment
    and no cached client.  A file that cannot be decoded raises an error
    that is not an [OSError]; it leaves through the caller, which then
    changes nothing, and is not among the cases here. *)
Definition _update_api_key (env_file : option text) (read_ok write_ok : bool)
    (api_key : text) (st : llm_state) : option text * llm_state :=
  let env_content :=
    match env_file with
    | Some content => if read_ok then Some content else None
    | None => Some []
    end in
  match env_content with
  | None => (None, st)
  | Some env_content =>
      let new_lines := new_key_lines api_key (splitlines env_content) in
      if write_ok then
        (Some (join_with NL new_lines),
         {| config := config st; _CLIENT := None;
            api_key_env := Some api_key; sent := sent st |})
      else (None, st)
  end.

(** A list of lines without its last line when that line is empty: what
    [splitlines] gives back for the lines joined with newlines. *)
Fixpoint chomp (L : list text) : list text :=
  match L with
  | [] => []
  | l :: L' =>
      match L' with
      | [] => match l with [] => [] | _ :: _ => [l] end
      | _ :: _ => l :: chomp L'
      end
  end.

(** ** Further instances used in the examples *)

(** A Linux host with one font family installed. *)
Definition linux_host : host :=
  {| families := ["DejaVu Sans"%string]; darwin := false;
     mdfind := fun _ => [];
     path_exists := fun p =>
       bool_decide (p ∈ ["/usr/share/fonts";
                         "/usr/share/fonts/DejaVuSans.ttf"]%string);
     ttfont_loads := fun _ _ => true;
     mkdir_ok := true; canvas_fonts := BUILTIN_FONTS; save_ok := true;
     project_root := "/app"; home := "/home/user" |}.

(** A model that answers every request with the same text, and a file
    system where every file reads as the same resume. *)
Definition canned_env : llm_env :=
  {| str_lower := fun s => s;
     uni_alnum := fun _ => false;
     is_pdf := fun _ => false;
     pdf_pages := fun _ => None;
     read_text := fun _ => Some (T "Jane Doe, engineer");
     new_client := fun _ => true;
     responses_create := fun _ _ => Some (T "Acme Engineer") |}.

(** The generator as imported, with a key in the environment. *)
Definition module_defaults : llm_state :=
  {| config :=
       {| _MODEL_NAME := "gpt-5"; _FILENAME_MODEL := "gpt-5";
          _MAX_TOKENS := 1200; _FILENAME_MAX_TOKENS := 60;
          _TEMPERATURE := 3 # 10; _TOP_P := 95 # 100;
          _COVER_LETTER_PROMPT :=
            T "You write concise, tailored cover letters.";
          _FILENAME_PROMPT :=
            T "You generate short, filesystem-safe PDF filenames." |};
     _CLIENT := None;
     api_key_env := Some (T "sk-test");
     sent := [] |}.

(** ** A backtracking matcher for the constructs the two patterns use

    The engine of Python's [re] explores alternatives in priority order:
    a greedy repetition first tries one more iteration, an optional group
    first tries to be present, an alternation tries its branches left to
    right; the first complete match wins.  Repetition only occurs over
    character sets in the source patterns. *)

Inductive regex : Type :=
  | Eps                             (* the empty pattern *)
  | Lit (c : char)                  (* a literal character *)
  | Seq (r1 r2 : regex)
  | Alt (r1 r2 : regex)
  | Opt (r : regex)                 (* (?:r)? , greedy *)
  | Star (p : char -> bool)         (* [set]* , greedy *)
  | Plus (p : char -> bool)         (* [set]+ , greedy *)
  | WordB                           (* \b *)
  | NotBehind (c : char).           (* (?<!c) *)

(** Literal string as a pattern. *)
Fixpoint lits (s : text) : regex :=
  match s with
  | [] => Eps
  | c :: s' => Seq (Lit c) (lits s')
  end.

(** Concatenation of a sequence of patterns. *)
Definition seqs (rs : list regex) : regex := foldr Seq Eps rs.

Definition first_match {A} (x y : option A) : option A :=
  match x with Some r => Some r | None => y end.

(** Greedy repetition of a set: consume while possible, give back one
    character at a time when the rest of the pattern fails.  [b] is the
    text behind the cursor (nearest character first), [a] the text ahead. *)
Fixpoint star_class {A} (p : char -> bool) (b a : text)
    (k : text -> text -> option A) : option A :=
  match a with
  | c :: a' =>
      if p c then first_match (star_class p (c :: b) a' k) (k b a)
      else k b a
  | [] => k b a
  end.

Section Model.
(** The part of Unicode's word-character table beyond ASCII. *)
Variable uni_word : char -> bool.

Definition is_word (c : char) : bool :=
  if (c <? 128)%N then ascii_word c else uni_word c.

Definition word_at (s : text) : bool :=
  match s with c :: _ => is_word c | [] => false end.

Fixpoint rmatch {A} (r : regex) (b a : text)
    (k : text -> text -> option A) : option A :=
  match r with
  | Eps => k b a
  | Lit c =>
      match a with
      | x :: a' => if (x =? c)%N then k (x :: b) a' else None
      | [] => None
      end
  | Seq r1 r2 => rmatch r1 b a (fun b' a' => rmatch r2 b' a' k)
  | Alt r1 r2 => first_match (rmatch r1 b a k) (rmatch r2 b a k)
  | Opt r1 => first_match (rmatch r1 b a k) (k b a)
  | Star p => star_class p b a k
  | Plus p =>
      match a with
      | x :: a' => if p x then star_class p (x :: b) a' k else None
      | [] => None
      end
  | WordB => if xorb (word_at b) (word_at a) then k b a else None
  | NotBehind c =>
      match b with
      | x :: _ => if (x =? c)%N then None else k b a
      | [] => k b a
      end
  end.

(** A match attempt anchored at the cursor: the end offset. *)
Definition match_at (r : regex) (b a : text) : option nat :=
  rmatch r b a (fun b' _ => Some (length b')).

(** [pattern.finditer(text)] as (start, end) pairs.  The scan walks the
    text; [skip] counts the characters still covered by the last match,
    so the next attempt starts where that match ended.  An empty match
    (which neither source pattern can produce) moves on by one
    character. *)
Fixpoint scan (r : regex) (b a : text) (skip : nat) : list (nat * nat) :=
  match a with
  | [] =>
      match skip with
      | 0 => match match_at r b a with
             | Some e => [(length b, e)]
             | None => []
             end
      | S _ => []
      end
  | c :: a' =>
      match skip with
      | S n => scan r (c :: b) a' n
      | 0 =>
          match match_at r b a with
          | Some e => (length b, e) :: scan r (c :: b) a' (e - length b - 1)
          | None => scan r (c :: b) a' 0
          end
      end
  end.

Definition finditer (r : regex) (s : text) : list (nat * nat) :=
  scan r [] s 0.

(** ** The two patterns *)

Definition in_set (extra : text) (c : char) : bool :=
  is_word c || bool_decide (c ∈ extra).

(** [[\w.+-]+@[\w.-]+\.\w+] *)
Definition EMAIL_PATTERN : regex :=
  seqs [ Plus (in_set (T ".+-"));
         Lit (chr "@");
         Plus (in_set (T ".-"));
         Lit (chr ".");
         Plus is_word ].

(** The URL pattern, piece by piece: [\b], [(?<!@)], [(?:https?://)?],
    [(?:www\.)?], [[\w.-]+], [\.], [(?:com|ca|org)], [\b] and an optional
    path, a slash followed by any number of [[\w./-]]. *)
Definition URL_PATTERN : regex :=
  seqs [ WordB;
         NotBehind (chr "@");
         Opt (seqs [lits (T "http"); Opt (Lit (chr "s")); lits (T "://")]);
         Opt (lits (T "www."));
         Plus (in_set (T ".-"));
         Lit (chr ".");
         Alt (lits (T "com")) (Alt (lits (T "ca")) (lits (T "org")));
         WordB;
         Opt (seqs [Lit (chr "/"); Star (in_set (T "./-"))]) ].

(** ** Link detection *)

(** A link is the tuple [(start, end, display_text, url)]. *)
Definition link : Type := nat * nat * text * text.
Definition l_start (l : link) : nat := l.1.1.1.
Definition l_end (l : link) : nat := l.1.1.2.
Definition l_text (l : link) : text := l.1.2.
Definition l_url (l : link) : text := l.2.

(** [range(start, end)] *)
Definition range (i j : nat) : list nat := seq i (j - i).

(** One iteration of the email loop: append the link, claim its
    offsets. *)
Definition email_step (s : text) (st : list link * gset nat)
    (m : nat * nat) : list link * gset nat :=
  let email := slice s m.1 m.2 in
  (st.1 ++ [(m.1, m.2, email, T "mailto:" ++ email)],
   foldl (fun pos i => pos ∪ {[ i ]}) st.2 (range m.1 m.2)).

Definition email_pass (s : text) : list link * gset nat :=
  foldl (email_step s) ([], ∅) (finditer EMAIL_PATTERN s).

(** [any(i in email_positions for i in range(start, end))] *)
Definition overlaps (pos : gset nat) (m : nat * nat) : bool :=
  existsb (fun i => bool_decide (i ∈ pos)) (range m.1 m.2).

Definition url_target (url_text : text) : text :=
  if startswith (T "http://") url_text || startswith (T "https://") url_text
  then url_text
  else T "https://" ++ url_text.

(** One iteration of the URL loop. *)
Definition url_step (s : text) (pos : gset nat) (links : list link)
    (m : nat * nat) : list link :=
  if overlaps pos m then links
  else
    let url_text := slice s m.1 m.2 in
    links ++ [(m.1, m.2, url_text, url_target url_text)].

(** [links.sort(key=lambda x: x[0])]: a stable sort on the start
    offset. *)
Fixpoint insert_by_start (x : link) (l : list link) : list link :=
  match l with
  | [] => [x]
  | y :: l' =>
      if l_start x <=? l_start y then x :: y :: l'
      else y :: insert_by_start x l'
  end.

Definition sort_by_start (l : list link) : list link :=
  foldr insert_by_start [] l.

Definition _find_links_in_text (s : text) : list link :=
  let st := email_pass s in
  let links := foldl (url_step s st.2) st.1 (finditer URL_PATTERN s) in
  sort_by_start links.

(** ** Canvas operations

    Horizontal positions and string widths are what the font metrics
    return; [cadd] is their addition and [coord_of_Z] the embedding of
    the integer margin. *)
Variable coord : Type.
Variable cadd : coord -> coord -> coord.
Variable coord_of_Z : Z -> coord.
(** [pdfmetrics.stringWidth(text, font_name, font_size)] *)
Variable stringWidth : text -> string -> Z -> coord.
(** [reportlab.lib.utils.simpleSplit(text, font_name, font_size, max_width)] *)
Variable simpleSplit : text -> string -> Z -> Z -> list text.

Definition rgb : Type := Q * Q * Q.
Definition LINK_BLUE : rgb := (0 # 1, 0 # 1, 8 # 10)%Q.
Definition BLACK : rgb := (0 # 1, 0 # 1, 0 # 1)%Q.

Inductive op : Type :=
  | SetFont (font_name : string) (font_size : Z)
  | DrawString (x : coord) (y : Z) (s : text)
  | SetFillColorRGB (c : rgb)
  | SetStrokeColorRGB (c : rgb)
  | LinkURL (url : text) (rect : coord * Z * coord * Z)
  | Line (x1 : coord) (y1 : Z) (x2 : coord) (y2 : Z)
  | ShowPage
  | Save.

Definition MARGIN : Z := 72.
Definition LETTER : Z * Z := (612, 792)%Z.

(** ** Drawing one line *)

(** The operations of one link run drawn at [current_x]. *)
Definition link_run (current_x : coord) (y : Z) (font_name : string)
    (font_size : Z) (display_text url : text) : list op :=
  let link_width := stringWidth display_text font_name font_size in
  [ SetFillColorRGB LINK_BLUE;
    SetFont font_name font_size;
    DrawString current_x y display_text;
    LinkURL url (current_x, y - 2, cadd current_x link_width, y + font_size)%Z;
    SetStrokeColorRGB LINK_BLUE;
    Line current_x (y - 1)%Z (cadd current_x link_width) (y - 1)%Z;
    SetFillColorRGB BLACK;
    SetStrokeColorRGB BLACK ].

(** Loop state of [_draw_line_with_links]: the operations issued so far,
    [current_x] and [last_end]. *)
Definition draw_state : Type := list op * coord * nat.

(** Body of [for start, end, display_text, url in links]. *)
Definition draw_link (line : text) (y : Z) (font_name : string)
    (font_size : Z) (st : draw_state) (l : link) : draw_state :=
  let '(ops, current_x, last_end) := st in
  let '(start, end_, display_text, url) := l in
  let '(ops, current_x) :=
    if last_end <? start then
      let before_text := slice line last_end start in
      (ops ++ [SetFont font_name font_size;
               DrawString current_x y before_text],
       cadd current_x (stringWidth before_text font_name font_size))
    else (ops, current_x) in
  (ops ++ link_run current_x y font_name font_size display_text url,
   cadd current_x (stringWidth display_text font_name font_size),
   end_).

(** [_draw_line_with_links(c, line, x, y, font_name, font_size)]: the
    operations issued on the canvas and the returned [y]. *)
Definition _draw_line_with_links (line : text) (x : coord) (y : Z)
    (font_name : string) (font_size : Z) : list op * Z :=
  let links := _find_links_in_text line in
  match links with
  | [] =>
      ([SetFont font_name font_size; DrawString x y line],
       y - (font_size + 2))%Z
  | _ :: _ =>
      let '(ops, current_x, last_end) :=
        foldl (draw_link line y font_name font_size) ([], x, 0) links in
      let ops :=
        if last_end <? length line then
          ops ++ [SetFont font_name font_size;
                  DrawString current_x y (drop last_end line)]
        else ops in
      (ops, y - (font_size + 2))%Z
  end.

(** The text runs of a sequence of operations, in drawing order. *)
Definition text_runs (ops : list op) : list text :=
  omap (fun o => match o with DrawString _ _ s => Some s | _ => None end) ops.

(** The clickable rectangles of a sequence of operations. *)
Definition link_rects (ops : list op) : list (text * (coord * Z * coord * Z)) :=
  omap (fun o => match o with LinkURL u r => Some (u, r) | _ => None end) ops.

(** ** The page loop

    The loop of [_save_cover_letter_pdf] carries [current_y]; what it does
    is logged step by step: a blank paragraph met with the cursor at [y],
    a [showPage] call made with the cursor at [y], a line handed to
    [_draw_line_with_links] at [y].  The canvas operations are read off
    the log by [event_ops]. *)
Inductive event : Type :=
  | Blank (y : Z)
  | Break (y : Z)
  | Drawn (y : Z) (line : text).

Definition page_top : Z := LETTER.2 - MARGIN.

Definition loop_state : Type := Z * list event.

(** The branch [if not paragraph.strip()]. *)
Definition blank_step (font_size : Z) (st : loop_state) : loop_state :=
  let current_y := (st.1 - (font_size + 2))%Z in
  if (current_y <=? MARGIN)%Z
  then (page_top, st.2 ++ [Blank st.1; Break current_y])
  else (current_y, st.2 ++ [Blank st.1]).

(** Body of [for line in simpleSplit(...)]. *)
Definition line_step (font_name : string) (font_size : Z)
    (st : loop_state) (line : text) : loop_state :=
  let '(current_y, log) :=
    if (st.1 <=? MARGIN)%Z then (page_top, st.2 ++ [Break st.1])
    else st in
  ((_draw_line_with_links line (coord_of_Z MARGIN) current_y
      font_name font_size).2,
   log ++ [Drawn current_y line]).

(** Body of [for paragraph in cover_letter.splitlines()]. *)
Definition paragraph_step (font_name : string) (font_size : Z)
    (st : loop_state) (paragraph : text) : loop_state :=
  if strip_is_empty paragraph then blank_step font_size st
  else
    let max_width := (LETTER.1 - 2 * MARGIN)%Z in
    foldl (line_step font_name font_size) st
      (simpleSplit paragraph font_name font_size max_width).

Definition page_loop (font_name : string) (font_size : Z)
    (cover_letter : text) : loop_state :=
  foldl (paragraph_step font_name font_size) (page_top, [])
    (splitlines cover_letter).

(** The canvas operations behind a logged step. *)
Definition event_ops (font_name : string) (font_size : Z) (e : event)
    : list op :=
  match e with
  | Blank _ => []
  | Break _ => [ShowPage]
  | Drawn y line =>
      (_draw_line_with_links line (coord_of_Z MARGIN) y
         font_name font_size).1
  end.

Definition ev_y (e : event) : Z :=
  match e with Blank y | Break y | Drawn y _ => y end.

Definition is_break (e : event) : bool :=
  match e with Break _ => true | _ => false end.

(** ** Font registration and the whole render

    The state a render can change: the global font registry of
    [pdfmetrics], the cached [self._font_path], and the operations
    issued on canvases so far.  A raised exception keeps the changes
    made before it. *)
Record world : Type := {
  registered : gset string;
  font_path : option string;
  canvas : list op
}.

Definition M (A : Type) : Type := world -> world * (exn + A).
Definition ret {A} (x : A) : M A := fun w => (w, inr x).
Definition raise {A} (e : exn) : M A := fun w => (w, inl e).
Definition bind {A B} (m : M A) (f : A -> M B) : M B :=
  fun w => match m w with
           | (w', inr x) => f x w'
           | (w', inl e) => (w', inl e)
           end.
Notation "x <~ m ;; k" := (bind m (fun x => k))
  (at level 90, m at level 80, k at level 200, only parsing).
Notation "m >> k" := (bind m (fun _ => k))
  (at level 90, k at level 200, only parsing).

Definition get : M world := fun w => (w, inr w).
Definition set_font_path (p : string) : M unit :=
  fun w => ({| registered := registered w; font_path := Some p;
               canvas := canvas w |}, inr tt).
Definition register (name : string) : M unit :=
  fun w => ({| registered := registered w ∪ {[ name ]};
               font_path := font_path w; canvas := canvas w |}, inr tt).
Definition register_all (names : list string) : M unit :=
  fun w => ({| registered := registered w ∪ list_to_set names;
               font_path := font_path w; canvas := canvas w |}, inr tt).
Definition emit (ops : list op) : M unit :=
  fun w => ({| registered := registered w; font_path := font_path w;
               canvas := canvas w ++ ops |}, inr tt).
Definition lift {A} (r : exn + A) : M A := fun w => (w, r).
Definition check (ok : bool) (e : exn) : M unit :=
  if ok then ret tt else raise e.

(** [_register_font()]; the [except] clause logs and re-raises. *)
Definition _register_font (h : host) (font_name : string) : M unit :=
  w <~ get ;;
  if bool_decide (font_name ∈ registered w) then ret tt
  else
    path <~ match font_path w with
            | None =>
                p <~ lift (_resolve_font_path h font_name) ;;
                set_font_path p >> ret p
            | Some p => ret p
            end ;;
    check (ttfont_loads h font_name path) TTFError >>
    register font_name.

(** [_save_cover_letter_pdf(cover_letter)].  The file name is computed
    between the font registration and [mkdir]; [_get_dynamic_filename]
    catches every exception, and the name plays no role in what is
    drawn.  Creating the canvas draws nothing, but the PDF library
    registers its own fonts with [pdfmetrics] when it does. *)
Definition _save_cover_letter_pdf (h : host) (font_name : string)
    (font_size : Z) (cover_letter : text) : M unit :=
  _register_font h font_name >>
  check (mkdir_ok h) OSError >>
  register_all (canvas_fonts h) >>
  emit (flat_map (event_ops font_name font_size)
          (page_loop font_name font_size cover_letter).2) >>
  check (save_ok h) OSError >>
  emit [Save].

(** ** The line wrapper *)

(** Comparison of a measured width with the available width. *)
Variable cle : coord -> coord -> bool.

Definition fits (font_name : string) (font_size max_width : Z)
    (line : text) : bool :=
  cle (stringWidth line font_name font_size) (coord_of_Z max_width).

(** Modelled from the spec: [simpleSplit] belongs to the PDF library and
    its code is not among the sources.  The design document describes it
    as a greedy wrap: words are accumulated on the current line while the
    measured width of the line stays within [max_width]; a word that is
    wider than [max_width] on its own still gets a line to itself.
    [cur] holds the words of the current line. *)
Fixpoint greedy_wrap (font_name : string) (font_size max_width : Z)
    (cur : list text) (ws : list text) : list text :=
  match ws with
  | [] => match cur with [] => [] | _ :: _ => [join cur] end
  | w :: ws' =>
      match cur with
      | [] => greedy_wrap font_name font_size max_width [w] ws'
      | _ :: _ =>
          if fits font_name font_size max_width (join (cur ++ [w]))
          then greedy_wrap font_name font_size max_width (cur ++ [w]) ws'
          else join cur :: greedy_wrap font_name font_size max_width [w] ws'
      end
  end.

(** Modelled from the spec: the wrapper applied to one paragraph. *)
Definition simpleSplit_spec (paragraph : text) (font_name : string)
    (font_size max_width : Z) : list text :=
  greedy_wrap font_name font_size max_width [] (split paragraph).

(** ** Notions used in the statements and proofs *)

(** The least number of characters a pattern consumes. *)
Fixpoint min_len (r : regex) : nat :=
  match r with
  | Eps | Opt _ | Star _ | WordB | NotBehind _ => 0
  | Lit _ | Plus _ => 1
  | Seq r1 r2 => min_len r1 + min_len r2
  | Alt r1 r2 => min_len r1 `min` min_len r2
  end.

(** Non-empty intervals inside [lo, hi], each starting at or after the
    end of the one before. *)
Fixpoint chain (lo hi : nat) (l : list (nat * nat)) : Prop :=
  match l with
  | [] => True
  | m :: l' => lo <= m.1 /\ m.1 < m.2 /\ m.2 <= hi /\ chain m.2 hi l'
  end.

Definition span (l : link) : nat * nat := (l_start l, l_end l).

Definition email_link (s : text) (m : nat * nat) : link :=
  (m.1, m.2, slice s m.1 m.2, T "mailto:" ++ slice s m.1 m.2).

Definition url_link (s : text) (m : nat * nat) : link :=
  (m.1, m.2, slice s m.1 m.2, url_target (slice s m.1 m.2)).

(** Two intervals that share no offset. *)
Definition disj (x y : nat * nat) : Prop := x.2 <= y.1 \/ y.2 <= x.1.

Definition within (lo hi : nat) (m : nat * nat) : Prop :=
  lo <= m.1 /\ m.1 < m.2 /\ m.2 <= hi.

Fixpoint pairwise (l : list (nat * nat)) : Prop :=
  match l with
  | [] => True
  | x :: l' => Forall (disj x) l' /\ pairwise l'
  end.

(** A start-ordered pair of links that do not overlap. *)
Definition before (x y : link) : Prop :=
  l_start x < l_start y /\ l_end x <= l_start y.

(** The cursor after a logged step. *)
Definition next_y (font_size : Z) (e : event) : Z :=
  if is_break e then page_top else (ev_y e - (font_size + 2))%Z.

Definition cursor_after (font_size : Z) (log : list event) : Z :=
  match last log with
  | Some e => next_y font_size e
  | None => page_top
  end.

(** A property of every pair of neighbours of a list. *)
Fixpoint adjacent {A} (R : A -> A -> Prop) (l : list A) : Prop :=
  match l with
  | [] => True
  | x :: l' =>
      match l' with [] => True | x' :: _ => R x x' end /\ adjacent R l'
  end.

Definition ev_ok (e : event) : Prop :=
  match e with
  | Break y => (y <= MARGIN)%Z
  | Drawn y _ => (MARGIN < y)%Z
  | Blank _ => True
  end.

(** What the loop guarantees about a step [e2] that follows [e1]. *)
Definition adj (font_size : Z) (e1 e2 : event) : Prop :=
  ev_y e2 = (if is_break e2 then (ev_y e1 - (font_size + 2))%Z
             else next_y font_size e1) /\
  (is_break e1 = true -> is_break e2 = false) /\
  (forall y, e1 = Blank y -> (y - (font_size + 2) <= MARGIN)%Z ->
             is_break e2 = true).

Definition head_ok (log : list event) : Prop :=
  forall e, head log = Some e -> is_break e = false /\ ev_y e = page_top.

Definition log_ok (font_size : Z) (log : list event) : Prop :=
  adjacent (adj font_size) log /\ Forall ev_ok log /\ head_ok log.

Definition loop_inv (font_size : Z) (st : loop_state) : Prop :=
  st.1 = cursor_after font_size st.2 /\
  log_ok font_size st.2 /\
  (forall y, last st.2 = Some (Blank y) ->
             (MARGIN < y - (font_size + 2))%Z).

(** No [showPage] among the steps [i .. j] of a log. *)
Definition same_page (log : list event) (i j : nat) : Prop :=
  forall k e, i <= k <= j -> log !! k = Some e -> is_break e = false.

(** Steps on one page descend by exactly [font_size + 2] per step, hence
    strictly. *)
Definition descends (font_size : Z) (log : list event) : Prop :=
  forall i j e1 e2,
    i < j -> log !! i = Some e1 -> log !! j = Some e2 ->
    same_page log i j ->
    ev_y e2 = (ev_y e1 - Z.of_nat (j - i) * (font_size + 2))%Z /\
    (ev_y e2 < ev_y e1)%Z.

(** What stands around a [showPage]: the blank paragraph whose decrement
    triggered it stands before it, or the line whose check triggered it
    follows it at the top of the new page. *)
Definition break_cause (log : list event) : Prop :=
  forall i y, log !! S i = Some (Break y) ->
    (exists yb, log !! i = Some (Blank yb)) \/
    (exists line, log !! S (S i) = Some (Drawn page_top line)).

(** Where page breaks occur.  A [showPage] is only called with the cursor
    at or below the margin, and a line is never drawn there; the first
    step starts at the top of the page; a break is triggered by the
    cursor value the step before left behind, is followed by a step at
    the top of the page, and always follows at once a blank paragraph that
    took the cursor to the margin or below.  A blank paragraph is not
    checked before it is processed: it is met at or below the margin only
    directly after a drawn line, one leading below that line, hence less
    than one leading below the margin.  A break that follows a drawn line
    is followed by the next line, at the top of the new page. *)
Definition breaks_at_margin (font_size : Z) (log : list event) : Prop :=
  (forall y, Break y ∈ log -> (y <= MARGIN)%Z) /\
  (forall y line, Drawn y line ∈ log -> (MARGIN < y)%Z) /\
  (forall e, log !! 0 = Some e -> is_break e = false /\ ev_y e = page_top) /\
  (forall i e1 e2, log !! i = Some e1 -> log !! S i = Some e2 ->
     (is_break e2 = true ->
        is_break e1 = false /\ ev_y e2 = (ev_y e1 - (font_size + 2))%Z) /\
     (is_break e1 = true -> is_break e2 = false /\ ev_y e2 = page_top) /\
     (forall y, e1 = Blank y -> (y - (font_size + 2) <= MARGIN)%Z ->
                is_break e2 = true) /\
     (forall y, e2 = Blank y -> (y <= MARGIN)%Z ->
                exists y' line, e1 = Drawn y' line /\
                                y = (y' - (font_size + 2))%Z)) /\
  (forall y, Blank y ∈ log ->
             (MARGIN < y)%Z \/ (MARGIN < y + (font_size + 2))%Z) /\
  (forall i y' line y,
     log !! i = Some (Drawn y' line) -> log !! S i = Some (Break y) ->
     exists line', log !! S (S i) = Some (Drawn page_top line')) /\
  (forall y, last log = Some (Blank y) -> (MARGIN < y - (font_size + 2))%Z).

(** The page-break half of the property as first worded: a break is
    emitted whenever the value about to be used is at or below the
    margin, so no step, drawn line or blank paragraph, uses such a
    value. *)
Definition used_above_margin (log : list event) : Prop :=
  forall e, e ∈ log -> is_break e = false -> (MARGIN < ev_y e)%Z.

(** A word as [str.split] produces it: non-empty, free of whitespace. *)
Definition word_ok (w : text) : Prop :=
  w <> [] /\ Forall (fun c => isspace c = false) w.

(** Every prefix of two or more words of a line fits the width. *)
Definition prefixes_fit (font_name : string) (font_size max_width : Z)
    (ws : list text) : Prop :=
  forall n, 2 <= n <= length ws ->
    fits font_name font_size max_width (join (take n ws)) = true.

(** Whether every text a pattern matches contains the character [c]. *)
Fixpoint requires (c : char) (r : regex) : bool :=
  match r with
  | Lit c' => (c' =? c)%N
  | Seq r1 r2 => requires c r1 || requires c r2
  | Alt r1 r2 => requires c r1 && requires c r2
  | _ => false
  end.

(** The text runs of a sequence of operations with their positions. *)
Definition run_boxes (ops : list op) : list (coord * Z * text) :=
  omap (fun o => match o with
                 | DrawString x y s => Some (x, y, s)
                 | _ => None
                 end) ops.

(** Runs laid side by side at height [y], the first one at [x], each one
    starting where the one before ends. *)
Fixpoint side_by_side (font_name : string) (font_size : Z) (x : coord)
    (y : Z) (boxes : list (coord * Z * text)) : Prop :=
  match boxes with
  | [] => True
  | b :: rest =>
      b.1.1 = x /\ b.1.2 = y /\
      side_by_side font_name font_size
        (cadd x (stringWidth b.2 font_name font_size)) y rest
  end.

(** The horizontal position reached after a sequence of runs. *)
Definition end_x (font_name : string) (font_size : Z) (x : coord)
    (boxes : list (coord * Z * text)) : coord :=
  foldl (fun x b => cadd x (stringWidth b.2 font_name font_size)) x boxes.

(** The fill and stroke colours in force after a sequence of operations. *)
Definition fill_after (c : rgb) (ops : list op) : rgb :=
  foldl (fun c o => match o with SetFillColorRGB c' => c' | _ => c end) c ops.

Definition stroke_after (c : rgb) (ops : list op) : rgb :=
  foldl (fun c o => match o with SetStrokeColorRGB c' => c' | _ => c end) c ops.

(** Each text run with the fill colour it is drawn in, [c] being the fill
    colour at the start. *)
Fixpoint painted (c : rgb) (ops : list op) : list (text * rgb) :=
  match ops with
  | [] => []
  | SetFillColorRGB c' :: ops' => painted c' ops'
  | DrawString _ _ s :: ops' => (s, c) :: painted c ops'
  | _ :: ops' => painted c ops'
  end.

Definition q_eqb (p q : Q) : bool :=
  (Qnum p =? Qnum q)%Z && (Qden p =? Qden q)%positive.

Definition rgb_eqb (a b : rgb) : bool :=
  q_eqb a.1.1 b.1.1 && q_eqb a.1.2 b.1.2 && q_eqb a.2 b.2.

(** The texts of the runs drawn in the link colour. *)
Definition blue_texts (runs : list (text * rgb)) : list text :=
  omap (fun r => if rgb_eqb r.2 LINK_BLUE then Some r.1 else None) runs.

(** The steps a document asks for, in order: [None] for a blank
    paragraph, [Some line] for each wrapped line of the other
    paragraphs. *)
Definition steps_of (font_name : string) (font_size : Z)
    (cover_letter : text) : list (option text) :=
  flat_map
    (fun p =>
       if strip_is_empty p then [None]
       else map Some
              (simpleSplit p font_name font_size (LETTER.1 - 2 * MARGIN)%Z))
    (splitlines cover_letter).

(** The steps a log records, page breaks left out. *)
Definition log_steps (log : list event) : list (option text) :=
  omap (fun e => match e with
                 | Blank _ => Some None
                 | Drawn _ line => Some (Some line)
                 | Break _ => None
                 end) log.

(** ** The application object and its handlers

    The fields of [FileUploadApp] that the handlers read and write;
    widgets, labels and log lines are left out, and the settings have the
    types of [DEFAULT_SETTINGS].  [workers] are the generation threads
    that have not finished, each with the arguments it was started with;
    [callbacks] are the calls they queued with [after], oldest first.
    A handler, and the call of a thread to the generator, run as one
    step each. *)
Record settings : Type := {
  cover_letter_model : string;
  filename_model : string;
  max_tokens : Z;
  filename_max_tokens : Z;
  temperature : Q;
  top_p : Q;
  s_font_name : string;                   (* the key font_name *)
  s_font_size : Z;                        (* the key font_size *)
  output_path : string
}.

(** [DEFAULT_SETTINGS]; the output path is the project root. *)
Definition DEFAULT_SETTINGS (h : host) : settings :=
  {| cover_letter_model := "gpt-5.1";
     filename_model := "gpt-5.1";
     max_tokens := 1200;
     filename_max_tokens := 60;
     temperature := 3 # 10;
     top_p := 95 # 100;
     s_font_name := "Helvetica";
     s_font_size := 12;
     output_path := project_root h |}.

Record job : Type := {
  j_resume_path : string;
  j_job_description : text;
  j_sample_path : option string
}.

Record FileUploadApp : Type := {
  resume_file : option string;            (* selected_files, key resume *)
  sample_file : option string;            (* selected_files, key sample *)
  _generation_in_progress : bool;
  _current_job_description : option text;
  _settings : settings;
  pdf : world;                            (* with self._font_path *)
  llm : llm_state;                        (* the globals of the generator *)
  workers : list job;
  callbacks : list (job * (llm_exn + text))
}.

(** [_apply_llm_settings()] *)
Definition _apply_llm_settings (s : settings) (st : llm_state) : llm_state :=
  {| config :=
       {| _MODEL_NAME := cover_letter_model s;
          _FILENAME_MODEL := filename_model s;
          _MAX_TOKENS := max_tokens s;
          _FILENAME_MAX_TOKENS := filename_max_tokens s;
          _TEMPERATURE := temperature s;
          _TOP_P := top_p s;
          _COVER_LETTER_PROMPT := _COVER_LETTER_PROMPT (config st);
          _FILENAME_PROMPT := _FILENAME_PROMPT (config st) |};
     _CLIENT := _CLIENT st;
     api_key_env := api_key_env st;
     sent := sent st |}.

(** [__init__]: [loaded] are the settings after [_load_settings],
    [resume] and [sample] the files found by [_load_previous_files],
    [fonts] the names in the font registry, [module] the generator as
    imported. *)
Definition FileUploadApp_init (loaded : settings) (fonts : gset string)
    (module : llm_state) (resume sample : option string) : FileUploadApp :=
  {| resume_file := resume; sample_file := sample;
     _generation_in_progress := false;
     _current_job_description := None;
     _settings := loaded;
     pdf := {| registered := fonts; font_path := None; canvas := [] |};
     llm := _apply_llm_settings loaded module;
     workers := []; callbacks := [] |}.

Inductive slot : Type := resume_slot | sample_slot.

(** [_select_file(slot)], with the answer of the file dialog. *)
Definition _select_file (s : slot) (filepath : string) (a : FileUploadApp)
    : FileUploadApp :=
  match filepath with
  | EmptyString => a
  | String _ _ =>
      {| resume_file := match s with
                        | resume_slot => Some filepath
                        | sample_slot => resume_file a
                        end;
         sample_file := match s with
                        | resume_slot => sample_file a
                        | sample_slot => Some filepath
                        end;
         _generation_in_progress := _generation_in_progress a;
         _current_job_description := _current_job_description a;
         _settings := _settings a; pdf := pdf a; llm := llm a;
         workers := workers a; callbacks := callbacks a |}
  end.

(** [_handle_paste_event(event)]; [clipboard] is [None] when
    [clipboard_get] raises. *)
Definition _handle_paste_event (clipboard : option text) (a : FileUploadApp)
    : FileUploadApp :=
  if _generation_in_progress a then a
  else
    match resume_file a with
    | Some (String c p) =>
        let resume_path := String c p in
        match clipboard with
        | None => a
        | Some job_description =>
            if strip_is_empty job_description then a
            else
              {| resume_file := resume_file a; sample_file := sample_file a;
                 _generation_in_progress := true;
                 _current_job_description := Some job_description;
                 _settings := _settings a; pdf := pdf a; llm := llm a;
                 workers :=
                   workers a ++
                   [{| j_resume_path := resume_path;
                       j_job_description := job_description;
                       j_sample_path := sample_file a |}];
                 callbacks := callbacks a |}
        end
    | _ => a
    end.

(** [_generate_cover_letter(resume_path, job_description, sample_path)],
    the body of a thread: the result, a letter or an exception, is
    queued for the main loop. *)
Definition _generate_cover_letter (E : llm_env) (j : job) (a : FileUploadApp)
    : FileUploadApp :=
  let r := generate_cover_letter E (llm a) (j_resume_path j)
             (j_job_description j) (j_sample_path j) in
  {| resume_file := resume_file a; sample_file := sample_file a;
     _generation_in_progress := _generation_in_progress a;
     _current_job_description := _current_job_description a;
     _settings := _settings a; pdf := pdf a; llm := r.1;
     workers := workers a;
     callbacks := callbacks a ++ [(j, r.2)] |}.

(** [_on_generation_succeeded(cover_letter)]: the exception of a failed
    render is caught.  The file name is asked for once the font is
    registered. *)
Definition _on_generation_succeeded (h : host) (E : llm_env)
    (PDF_FILENAME : text) (cover_letter : text) (a : FileUploadApp)
    : FileUploadApp :=
  let font_name := s_font_name (_settings a) in
  let font_size := s_font_size (_settings a) in
  {| resume_file := resume_file a; sample_file := sample_file a;
     _generation_in_progress := false;
     _current_job_description := _current_job_description a;
     _settings := _settings a;
     pdf := (_save_cover_letter_pdf h font_name font_size cover_letter
               (pdf a)).1;
     llm := match (_register_font h font_name (pdf a)).2 with
            | inr _ =>
                (_get_dynamic_filename E PDF_FILENAME (llm a)
                   (_current_job_description a)).1
            | inl _ => llm a
            end;
     workers := workers a; callbacks := callbacks a |}.

(** [_on_generation_failed(error)] *)
Definition _on_generation_failed (a : FileUploadApp) : FileUploadApp :=
  {| resume_file := resume_file a; sample_file := sample_file a;
     _generation_in_progress := false;
     _current_job_description := _current_job_description a;
     _settings := _settings a; pdf := pdf a; llm := llm a;
     workers := workers a; callbacks := callbacks a |}.

(** The variables of the preferences dialog when Save is pressed.
    [numeric_vars] is what the five conversions give, in the order of the
    source: max tokens, filename max tokens, temperature, top p, font
    size; [None] when one of them raises [ValueError]. *)
Record dialog : Type := {
  api_key_var : text;
  cover_model_var : string;
  filename_model_var : string;
  numeric_vars : option (Z * Z * Q * Q * Z);
  font_var : string;
  output_path_var : string
}.

(** [save_preferences()] of the dialog, with what the key file answers. *)
Definition save_preferences (d : dialog) (env_file : option text)
    (read_ok write_ok : bool) (a : FileUploadApp) : FileUploadApp :=
  match numeric_vars d with
  | None => a
  | Some (max_tokens', filename_max_tokens', temperature', top_p',
          font_size') =>
      let api_key := strip (api_key_var d) in
      let llm1 :=
        match api_key with
        | [] => llm a
        | _ :: _ =>
            (_update_api_key env_file read_ok write_ok api_key (llm a)).2
        end in
      let s := {| cover_letter_model := cover_model_var d;
                  filename_model := filename_model_var d;
                  max_tokens := max_tokens';
                  filename_max_tokens := filename_max_tokens';
                  temperature := temperature';
                  top_p := top_p';
                  s_font_name := font_var d;
                  s_font_size := font_size';
                  output_path := output_path_var d |} in
      {| resume_file := resume_file a; sample_file := sample_file a;
         _generation_in_progress := _generation_in_progress a;
         _current_job_description := _current_job_description a;
         _settings := s;
         pdf := {| registered := registered (pdf a); font_path := None;
                   canvas := canvas (pdf a) |};
         llm := _apply_llm_settings s llm1;
         workers := workers a; callbacks := callbacks a |}
  end.

(** What can happen to the application: a file is chosen, text is
    pasted, the thread at position [i] finishes its call, the main loop
    runs the oldest queued callback, Save is pressed in the preferences
    dialog. *)
Inductive action : Type :=
  | SelectFile (s : slot) (filepath : string)
  | Paste (clipboard : option text)
  | WorkerRuns (i : nat)
  | Callback
  | SavePreferences (d : dialog) (env_file : option text)
      (read_ok write_ok : bool).

Definition app_step (h : host) (E : llm_env) (PDF_FILENAME : text)
    (a : FileUploadApp) (ev : action) : FileUploadApp :=
  match ev with
  | SelectFile s filepath => _select_file s filepath a
  | Paste clipboard => _handle_paste_event clipboard a
  | WorkerRuns i =>
      match workers a !! i with
      | Some j =>
          _generate_cover_letter E j
            {| resume_file := resume_file a; sample_file := sample_file a;
               _generation_in_progress := _generation_in_progress a;
               _current_job_description := _current_job_description a;
               _settings := _settings a; pdf := pdf a; llm := llm a;
               workers := delete i (workers a);
               callbacks := callbacks a |}
      | None => a
      end
  | Callback =>
      match callbacks a with
      | [] => a
      | (_, r) :: rest =>
          let a' :=
            {| resume_file := resume_file a; sample_file := sample_file a;
               _generation_in_progress := _generation_in_progress a;
               _current_job_description := _current_job_description a;
               _settings := _settings a; pdf := pdf a; llm := llm a;
               workers := workers a; callbacks := rest |} in
          match r with
          | inr cover_letter =>
              _on_generation_succeeded h E PDF_FILENAME cover_letter a'
          | inl _ => _on_generation_failed a'
          end
      end
  | SavePreferences d env_file read_ok write_ok =>
      save_preferences d env_file read_ok write_ok a
  end.

Definition app_run (h : host) (E : llm_env) (PDF_FILENAME : text)
    (a : FileUploadApp) (evs : list action) : FileUploadApp :=
  foldl (app_step h E PDF_FILENAME) a evs.

(** The generations under way: threads still running and results still
    queued. *)
Definition jobs (a : FileUploadApp) : list job :=
  workers a ++ map fst (callbacks a).

(** ** The matcher only moves forward *)

Lemma star_class_inv {A} p (k : text -> text -> option A) x :
  forall a b, star_class p b a k = Some x ->
    exists m a', a = m ++ a' /\ k (rev m ++ b) a' = Some x.
Proof.
  induction a as [|c a IH]; intros b H; simpl in H.
  - exists [], []. auto.
  - destruct (p c); [|exists [], (c :: a); auto].
    destruct (star_class p (c :: b) a k) as [r|] eqn:E; simpl in H.
    + injection H as ->. destruct (IH _ E) as (m & a' & -> & Hk).
      exists (c :: m), a'. split; [done|].
      simpl. by rewrite <- app_assoc.
    + exists [], (c :: a); auto.
Qed.

Lemma rmatch_inv {A} r :
  forall b a (k : text -> text -> option A) x,
    rmatch r b a k = Some x ->
    exists m a', a = m ++ a' /\ k (rev m ++ b) a' = Some x
                 /\ min_len r <= length m.
Proof.
  induction r as [|c|r1 IH1 r2 IH2|r1 IH1 r2 IH2|r IH|p|p| |c];
    intros b a k x H; simpl in H.
  - exists [], a. simpl. auto with lia.
  - destruct a as [|y a]; [done|]. destruct (y =? c)%N; [|done].
    exists [y], a. simpl. auto.
  - destruct (IH1 _ _ _ _ H) as (m1 & a1 & -> & H1 & L1).
    destruct (IH2 _ _ _ _ H1) as (m2 & a2 & -> & H2 & L2).
    exists (m1 ++ m2), a2. rewrite rev_app_distr, <- !app_assoc, length_app.
    simpl. auto with lia.
  - destruct (rmatch r1 b a k) as [y|] eqn:E; simpl in H.
    + injection H as ->. destruct (IH1 _ _ _ _ E) as (m & a' & -> & Hk & L).
      exists m, a'. simpl. auto with lia.
    + destruct (IH2 _ _ _ _ H) as (m & a' & -> & Hk & L).
      exists m, a'. simpl. auto with lia.
  - destruct (rmatch r b a k) as [y|] eqn:E; simpl in H.
    + injection H as ->. destruct (IH _ _ _ _ E) as (m & a' & -> & Hk & L).
      exists m, a'. simpl. auto with lia.
    + exists [], a. simpl. auto with lia.
  - destruct (star_class_inv _ _ _ _ _ H) as (m & a' & -> & Hk).
    exists m, a'. simpl. auto with lia.
  - destruct a as [|y a]; [done|]. destruct (p y); [|done].
    destruct (star_class_inv _ _ _ _ _ H) as (m & a' & -> & Hk).
    exists (y :: m), a'. simpl. rewrite <- app_assoc. simpl. auto with lia.
  - destruct (xorb _ _); [|done]. exists [], a. simpl. auto with lia.
  - exists [], a. simpl. destruct b as [|y b]; [auto with lia|].
    destruct (y =? c)%N; [done|auto with lia].
Qed.

Lemma match_at_bounds r b a e :
  match_at r b a = Some e ->
  length b + min_len r <= e <= length b + length a.
Proof.
  unfold match_at. intros H.
  destruct (rmatch_inv _ _ _ _ _ H) as (m & a' & -> & Hk & L).
  injection Hk as <-. rewrite !length_app, length_rev. lia.
Qed.

Lemma chain_weaken lo lo' hi l : lo' <= lo -> chain lo hi l -> chain lo' hi l.
Proof. destruct l; simpl; intuition lia. Qed.

Lemma scan_chain r (Hr : 0 < min_len r) :
  forall a b skip,
    chain (length b + skip) (length b + length a) (scan r b a skip).
Proof.
  induction a as [|c a IH]; intros b skip; simpl.
  - destruct skip; [|done].
    destruct (match_at r b []) as [e|] eqn:E; [|done].
    apply match_at_bounds in E. simpl in E. lia.
  - destruct skip as [|n].
    + destruct (match_at r b (c :: a)) as [e|] eqn:E.
      * apply match_at_bounds in E. simpl in *.
        repeat split; try lia.
        eapply chain_weaken; [|replace (length b + S (length a))
          with (length (c :: b) + length a) by (simpl; lia); apply IH].
        simpl. lia.
      * eapply chain_weaken; [|replace (length b + S (length a))
          with (length (c :: b) + length a) by (simpl; lia); apply IH].
        simpl. lia.
    + replace (length b + S n) with (length (c :: b) + n) by (simpl; lia).
      replace (length b + S (length a))
        with (length (c :: b) + length a) by (simpl; lia).
      apply IH.
Qed.

Lemma finditer_chain r s :
  0 < min_len r -> chain 0 (length s) (finditer r s).
Proof. intros Hr. apply (scan_chain r Hr s [] 0). Qed.

(** ** Facts about intervals and the sort *)

Lemma chain_lower lo hi l : chain lo hi l -> Forall (within lo hi) l.
Proof.
  revert lo. induction l as [|m l IH]; intros lo H; [constructor|].
  destruct H as (H1 & H2 & H3 & H4). constructor; [done|].
  eapply Forall_impl; [apply (IH _ H4)|].
  unfold within. intros y ?. lia.
Qed.

Lemma chain_pairwise lo hi l : chain lo hi l -> pairwise l.
Proof.
  revert lo. induction l as [|m l IH]; intros lo H; [done|].
  destruct H as (H1 & H2 & H3 & H4). split; [|by eapply IH].
  eapply Forall_impl; [apply (chain_lower _ _ _ H4)|].
  unfold within, disj. intros y ?. lia.
Qed.

Lemma chain_filter (P : nat * nat -> Prop) `{forall m, Decision (P m)} lo hi l :
  chain lo hi l -> chain lo hi (filter P l).
Proof.
  revert lo. induction l as [|m l IH]; intros lo Hc; [done|].
  destruct Hc as (H1 & H2 & H3 & H4). rewrite filter_cons.
  destruct (decide (P m)).
  - simpl. auto.
  - eapply chain_weaken; [|apply IH, H4]. lia.
Qed.

Lemma pairwise_app l1 l2 :
  pairwise l1 -> pairwise l2 ->
  (forall x y, x ∈ l1 -> y ∈ l2 -> disj x y) ->
  pairwise (l1 ++ l2).
Proof.
  induction l1 as [|x l1 IH]; intros H1 H2 Hx; [done|].
  destruct H1 as [Hd H1]. split.
  - apply Forall_app. split; [done|].
    apply Forall_forall. intros y Hy. apply Hx; [left|done].
  - apply IH; [done..|]. intros a c Ha Hc. apply Hx; [by right|done].
Qed.

Lemma insert_by_start_perm x l : insert_by_start x l ≡ₚ x :: l.
Proof.
  induction l as [|y l IH]; simpl; [done|].
  destruct (l_start x <=? l_start y); [done|].
  rewrite IH. apply Permutation_swap.
Qed.

Lemma sort_by_start_perm l : sort_by_start l ≡ₚ l.
Proof.
  induction l as [|x l IH]; simpl; [done|].
  rewrite insert_by_start_perm. by rewrite IH.
Qed.

Lemma insert_by_start_chain x l :
  forall lo hi,
    chain lo hi (map span l) -> within lo hi (span x) ->
    Forall (fun y => disj (span x) (span y)) l ->
    chain lo hi (map span (insert_by_start x l)).
Proof.
  induction l as [|y l IH]; intros lo hi Hc Hx Hd.
  - simpl. unfold within in Hx. intuition.
  - simpl in Hc. destruct Hc as (H1 & H2 & H3 & H4).
    apply Forall_cons in Hd as [Hxy Hd]. simpl.
    unfold within, disj in *. simpl in *.
    destruct (Nat.leb_spec (l_start x) (l_start y)); simpl.
    + intuition lia.
    + repeat split; try done. apply IH; [done| |done].
      unfold within. simpl. lia.
Qed.

Lemma sort_by_start_chain l lo hi :
  pairwise (map span l) -> Forall (within lo hi) (map span l) ->
  chain lo hi (map span (sort_by_start l)).
Proof.
  induction l as [|x l IH]; intros Hp Hw; [done|].
  simpl in Hp, Hw. destruct Hp as [Hd Hp].
  apply Forall_cons in Hw as [Hx Hw]. simpl.
  apply insert_by_start_chain; [by apply IH|done|].
  rewrite sort_by_start_perm. rewrite Forall_map in Hd. exact Hd.
Qed.

Lemma chain_before lo hi l :
  chain lo hi (map span l) -> StronglySorted before l.
Proof.
  revert lo. induction l as [|x l IH]; intros lo H; [constructor|].
  destruct H as (H1 & H2 & H3 & H4). constructor; [by eapply IH|].
  apply chain_lower in H4. rewrite Forall_map in H4.
  eapply Forall_impl; [exact H4|].
  unfold within, before. simpl in *. intros y ?. lia.
Qed.

(** ** The two loops of the detector in closed form *)

Lemma claim_offsets (l : list nat) :
  forall (P : gset nat) i,
    i ∈ foldl (fun pos j => pos ∪ {[ j ]}) P l <-> i ∈ P \/ i ∈ l.
Proof.
  induction l as [|j l IH]; intros P i; simpl.
  - rewrite elem_of_nil. tauto.
  - rewrite IH, elem_of_union, elem_of_singleton, elem_of_cons. tauto.
Qed.

Lemma in_range i a b : i ∈ range a b <-> a <= i < b.
Proof. unfold range. rewrite elem_of_seq. lia. Qed.

Lemma email_fold_links s ms :
  forall st, (foldl (email_step s) st ms).1 = st.1 ++ map (email_link s) ms.
Proof.
  induction ms as [|m ms IH]; intros st; simpl.
  - by rewrite app_nil_r.
  - rewrite IH. simpl. by rewrite <- app_assoc.
Qed.

Lemma email_fold_claimed s ms :
  forall st i,
    i ∈ (foldl (email_step s) st ms).2 <->
    i ∈ st.2 \/ exists m, m ∈ ms /\ m.1 <= i < m.2.
Proof.
  induction ms as [|m ms IH]; intros st i; simpl.
  - split; [auto|]. intros [?|(m & Hm & _)]; [done|]. by apply elem_of_nil in Hm.
  - rewrite IH. simpl. rewrite claim_offsets, in_range. split.
    + intros [[?|?]|(m' & ? & ?)]; [by left|right..].
      * exists m. split; [left|done].
      * exists m'. split; [by right|done].
    + intros [?|(m' & Hm & ?)]; [by left; left|].
      apply elem_of_cons in Hm as [->|?]; [by left; right|].
      right. by exists m'.
Qed.

Lemma overlaps_false pos m :
  overlaps pos m = false <-> forall i, m.1 <= i < m.2 -> i ∉ pos.
Proof.
  unfold overlaps. split.
  - intros H i Hi Hin.
    assert (existsb (fun i => bool_decide (i ∈ pos)) (range m.1 m.2) = true);
      [|congruence].
    apply existsb_exists. exists i. split.
    + apply list_elem_of_In, in_range, Hi.
    + by apply bool_decide_eq_true.
  - intros H. apply not_true_is_false. intros Ht.
    apply existsb_exists in Ht as (i & Hi & Hp).
    apply list_elem_of_In, in_range in Hi.
    apply bool_decide_eq_true in Hp. by apply (H i).
Qed.

Lemma url_fold_links s pos ms :
  forall links,
    foldl (url_step s pos) links ms =
    links ++ map (url_link s) (filter (fun m => overlaps pos m = false) ms).
Proof.
  induction ms as [|m ms IH]; intros links; simpl.
  - by rewrite app_nil_r.
  - rewrite IH, filter_cons. unfold url_step.
    destruct (overlaps pos m) eqn:E.
    + by rewrite decide_False.
    + rewrite decide_True by done. simpl. by rewrite <- app_assoc.
Qed.

Lemma find_links_unfold s :
  _find_links_in_text s =
  sort_by_start
    (map (email_link s) (finditer EMAIL_PATTERN s) ++
     map (url_link s)
       (filter (fun m => overlaps (email_pass s).2 m = false)
          (finditer URL_PATTERN s))).
Proof.
  unfold _find_links_in_text. rewrite url_fold_links.
  unfold email_pass at 1. by rewrite email_fold_links.
Qed.

Lemma span_email_link s l : map span (map (email_link s) l) = l.
Proof. induction l as [|[a b] l IH]; simpl; [done|]. by rewrite IH. Qed.

Lemma span_url_link s l : map span (map (url_link s) l) = l.
Proof. induction l as [|[a b] l IH]; simpl; [done|]. by rewrite IH. Qed.

Lemma min_len_email : 0 < min_len EMAIL_PATTERN.
Proof. simpl. lia. Qed.

Lemma min_len_url : 0 < min_len URL_PATTERN.
Proof. simpl. lia. Qed.

(** The detector returns a chain of intervals of the line. *)
Lemma find_links_chain s :
  chain 0 (length s) (map span (_find_links_in_text s)).
Proof.
  rewrite find_links_unfold.
  pose proof (finditer_chain EMAIL_PATTERN s min_len_email) as He.
  pose proof (finditer_chain URL_PATTERN s min_len_url) as Hu.
  apply (chain_filter (fun m => overlaps (email_pass s).2 m = false)) in Hu.
  apply sort_by_start_chain; rewrite map_app, span_email_link, span_url_link.
  - apply pairwise_app; [by eapply chain_pairwise..|].
    intros x y Hx Hy.
    assert (within 0 (length s) x) as (_ & Hx' & _).
    { apply chain_lower in He. rewrite Forall_forall in He. by apply He. }
    assert (within 0 (length s) y) as (_ & Hy' & _).
    { apply chain_lower in Hu. rewrite Forall_forall in Hu. by apply Hu. }
    apply list_elem_of_filter in Hy as [Hy _].
    rewrite overlaps_false in Hy.
    assert (forall i, x.1 <= i < x.2 -> i ∈ (email_pass s).2) as Hc.
    { intros i Hi. apply email_fold_claimed. right. by exists x. }
    unfold disj.
    destruct (decide (x.2 <= y.1)); [by left|].
    destruct (decide (y.2 <= x.1)); [by right|]. exfalso.
    destruct (decide (x.1 <= y.1)).
    + apply (Hy y.1); [lia|]. apply Hc. lia.
    + apply (Hy x.1); [lia|]. apply Hc. lia.
  - apply Forall_app. split; by eapply chain_lower.
Qed.

(** Every link shows the piece of the line it covers. *)
Lemma find_links_text s :
  Forall (fun l => l_text l = slice s (l_start l) (l_end l))
    (_find_links_in_text s).
Proof.
  rewrite find_links_unfold, sort_by_start_perm.
  apply Forall_app. split; apply Forall_forall; intros l Hl;
    apply list_elem_of_In, in_map_iff in Hl as (m & <- & _); done.
Qed.

Lemma startswith_prefix p : forall s, startswith p s = true <-> p `prefix_of` s.
Proof.
  induction p as [|c p IH]; intros s; simpl.
  - split; [intros _; apply prefix_nil|done].
  - destruct s as [|d s].
    + split; [done|]. intros [k Hk]. discriminate.
    + rewrite andb_true_iff, IH, N.eqb_eq. split.
      * intros [-> Hp]. by apply prefix_cons.
      * intros [k Hk]. injection Hk as -> ->. split; [done|]. by exists k.
Qed.

(** ** The detector *)

(** C1. For every line, the links returned by the detector are sorted
    ascending by start offset and pairwise non-overlapping: each link
    starts strictly after the start of, and not before the end of, every
    link that precedes it in the result.  The result consists of the
    email matches and of the URL matches that share no offset with a
    claimed one, and the claimed offsets are exactly those covered by an
    email match. *)
Theorem find_links_sorted_disjoint (s : text) :
  StronglySorted before (_find_links_in_text s) /\
  _find_links_in_text s ≡ₚ
    map (email_link s) (finditer EMAIL_PATTERN s) ++
    map (url_link s)
      (filter (fun m => overlaps (email_pass s).2 m = false)
         (finditer URL_PATTERN s)) /\
  (forall i, i ∈ (email_pass s).2 <->
             exists m, m ∈ finditer EMAIL_PATTERN s /\ m.1 <= i < m.2) /\
  (forall m, overlaps (email_pass s).2 m = false <->
             forall i, m.1 <= i < m.2 -> i ∉ (email_pass s).2).
Proof.
  split; [eapply chain_before, find_links_chain|].
  split; [by rewrite find_links_unfold, sort_by_start_perm|].
  split; [|intros m; apply overlaps_false].
  intros i. unfold email_pass. rewrite email_fold_claimed. simpl.
  rewrite elem_of_empty. tauto.
Qed.

(** C2. On the line [Contact me at a@b.com or visit b.com/x] the detector
    returns exactly two links, in this order: the email at offsets 14 to
    21 with target [mailto:a@b.com], then the URL at offsets 31 to 38
    with target [https://b.com/x]. *)
Theorem find_links_contact_line :
  _find_links_in_text (T "Contact me at a@b.com or visit b.com/x") =
  [ (14, 21, T "a@b.com", T "mailto:a@b.com");
    (31, 38, T "b.com/x", T "https://b.com/x") ].
Proof. vm_compute. reflexivity. Qed.

(** C3. On the line [a@b.com] the detector returns the email link alone.
    The URL pattern finds nothing in that line although it matches
    [b.com] on its own: the attempt at offset 2 fails because an at-sign
    is behind the cursor, and the offsets 2 to 7 it would cover are all
    claimed by the email, so the overlap test would discard it as
    well. *)
Theorem find_links_email_only :
  _find_links_in_text (T "a@b.com") =
    [ (0, 7, T "a@b.com", T "mailto:a@b.com") ] /\
  finditer URL_PATTERN (T "a@b.com") = [] /\
  finditer URL_PATTERN (T "b.com") = [ (0, 5) ] /\
  match_at URL_PATTERN (rev (T "a@")) (T "b.com") = None /\
  match_at URL_PATTERN (rev (T "a ")) (T "b.com") = Some 7 /\
  overlaps (email_pass (T "a@b.com")).2 (2, 7) = true.
Proof. vm_compute. repeat split; reflexivity. Qed.

(** The overlap test at work: in [a@b-c.com] the URL pattern does match
    the piece [-c.com], which lies inside the email, and the detector
    drops it. *)
Example find_links_overlap_discarded :
  finditer URL_PATTERN (T "a@b-c.com") = [ (3, 9) ] /\
  overlaps (email_pass (T "a@b-c.com")).2 (3, 9) = true /\
  _find_links_in_text (T "a@b-c.com") =
    [ (0, 9, T "a@b-c.com", T "mailto:a@b-c.com") ].
Proof. vm_compute. repeat split; reflexivity. Qed.

(** Backtracking in the URL pattern: the domain set is greedy and gives
    characters back until a listed top-level label followed by a word
    boundary is found; a scheme is kept in the target, not added twice. *)
Example find_links_backtracking :
  _find_links_in_text (T "at foo.com.au, x.company or http://q.ca/a.b!") =
    [ (3, 10, T "foo.com", T "https://foo.com");
      (28, 43, T "http://q.ca/a.b", T "http://q.ca/a.b") ].
Proof. vm_compute. reflexivity. Qed.

(** C4. Every URL match that passes the overlap test yields a link over
    the matched offsets whose display text is the matched text and whose
    target is the matched text itself when it starts with [http://] or
    [https://], and [https://] followed by the matched text otherwise. *)
Theorem url_link_target (s : text) (m : nat * nat) :
  m ∈ finditer URL_PATTERN s ->
  overlaps (email_pass s).2 m = false ->
  exists l, l ∈ _find_links_in_text s /\
    span l = m /\
    l_text l = slice s m.1 m.2 /\
    (T "http://" `prefix_of` l_text l \/ T "https://" `prefix_of` l_text l ->
       l_url l = l_text l) /\
    (~ (T "http://" `prefix_of` l_text l \/ T "https://" `prefix_of` l_text l) ->
       l_url l = T "https://" ++ l_text l).
Proof.
  intros Hm Ho. exists (url_link s m). split.
  - rewrite find_links_unfold, sort_by_start_perm.
    apply elem_of_app. right. apply list_elem_of_In, in_map.
    apply list_elem_of_In, list_elem_of_filter. by split.
  - split; [by destruct m|]. split; [done|].
    change (l_text (url_link s m)) with (slice s m.1 m.2).
    change (l_url (url_link s m)) with (url_target (slice s m.1 m.2)).
    unfold url_target. rewrite <- !startswith_prefix.
    destruct (startswith (T "http://") (slice s m.1 m.2));
      destruct (startswith (T "https://") (slice s m.1 m.2)); simpl;
      (split; intros H; try done; try (by destruct H);
       exfalso; apply H; auto).
Qed.

(** ** Drawing one line *)

Lemma slice_app (s : text) i j k :
  i <= j -> j <= k -> slice s i j ++ slice s j k = slice s i k.
Proof.
  intros Hij Hjk. unfold slice.
  replace (drop j s) with (drop (j - i) (drop i s))
    by (rewrite drop_drop; f_equal; lia).
  rewrite take_take_drop. f_equal. lia.
Qed.

Lemma slice_full (s : text) k : length s <= k -> slice s 0 k = s.
Proof. intros H. unfold slice. rewrite drop_0. apply take_ge. lia. Qed.

Lemma slice_drop (s : text) k : slice s 0 k ++ drop k s = s.
Proof. unfold slice. rewrite drop_0, Nat.sub_0_r. apply take_drop. Qed.

Lemma text_runs_app a b : text_runs (a ++ b) = text_runs a ++ text_runs b.
Proof. apply omap_app. Qed.

Lemma link_rects_app a b : link_rects (a ++ b) = link_rects a ++ link_rects b.
Proof. apply omap_app. Qed.

Section OneLine.
Variable line : text.
Variable y : Z.
Variable font_name : string.
Variable font_size : Z.

Local Notation "'step'" := (draw_link line y font_name font_size).

(** The rectangle registered for a link drawn at [x]. *)
Local Notation "'rect_at' x l" :=
  (x, y - 2, cadd x (stringWidth (l_text l) font_name font_size),
   y + font_size)%Z (at level 10, x at level 9, l at level 9).

Lemma draw_link_ops st l :
  exists gap x,
    (step st l).1.1 =
      st.1.1 ++ gap ++
        link_run x y font_name font_size (l_text l) (l_url l) /\
    link_rects gap = [] /\
    (step st l).2 = l_end l /\
    concat (text_runs gap) =
      (if st.2 <? l_start l then slice line st.2 (l_start l) else []).
Proof.
  destruct st as [[ops cx] last], l as [[[st en] d] u].
  unfold draw_link, l_text, l_url, l_end, l_start. simpl.
  destruct (last <? st).
  - exists [SetFont font_name font_size;
            DrawString cx y (slice line last st)],
      (cadd cx (stringWidth (slice line last st) font_name font_size)).
    simpl. rewrite <- app_assoc, app_nil_r. done.
  - exists [], cx. done.
Qed.

Lemma draw_fold_ops links :
  forall st, exists more,
    (foldl step st links).1.1 = st.1.1 ++ more.
Proof.
  induction links as [|l links IH]; intros st; simpl.
  - exists []. by rewrite app_nil_r.
  - destruct (IH (step st l)) as [more ->].
    destruct (draw_link_ops st l) as (gap & x & -> & _).
    eexists. by rewrite <- !app_assoc.
Qed.

Lemma draw_fold_contains links :
  forall st l, l ∈ links ->
    exists pre post x,
      (foldl step st links).1.1 =
        pre ++ link_run x y font_name font_size (l_text l) (l_url l)
            ++ post.
Proof.
  induction links as [|l0 links IH]; intros st l Hl.
  - by apply elem_of_nil in Hl.
  - simpl. apply elem_of_cons in Hl as [->|Hl]; [|by apply IH].
    destruct (draw_fold_ops links (step st l0)) as [more ->].
    destruct (draw_link_ops st l0) as (gap & x & -> & _).
    exists (st.1.1 ++ gap), more, x. by rewrite <- !app_assoc.
Qed.

Lemma draw_fold_rects links :
  forall st done_,
    Forall2 (fun r l => r.1 = l_url l /\ exists x, r.2 = rect_at x l)
      (link_rects st.1.1) done_ ->
    Forall2 (fun r l => r.1 = l_url l /\ exists x, r.2 = rect_at x l)
      (link_rects (foldl step st links).1.1) (done_ ++ links).
Proof.
  induction links as [|l links IH]; intros st done_ H; simpl.
  - by rewrite app_nil_r.
  - replace (done_ ++ l :: links) with ((done_ ++ [l]) ++ links)
      by (by rewrite <- app_assoc).
    apply IH.
    destruct (draw_link_ops st l) as (gap & x & -> & Hg & _).
    rewrite !link_rects_app, Hg. simpl.
    apply Forall2_app; [done|].
    constructor; [|constructor]. simpl. split; [done|]. by exists x.
Qed.

Lemma draw_fold_text links :
  forall st lo hi,
    chain lo hi (map span links) -> st.2 <= lo ->
    Forall (fun l => l_text l = slice line (l_start l) (l_end l)) links ->
    st.2 <= (foldl step st links).2 <= Nat.max st.2 hi /\
    concat (text_runs (foldl step st links).1.1) =
      concat (text_runs st.1.1) ++
      slice line st.2 (foldl step st links).2.
Proof.
  induction links as [|l links IH]; intros st lo hi Hc Hlo Ht; simpl.
  - split; [lia|]. unfold slice. by rewrite Nat.sub_diag, take_0, app_nil_r.
  - simpl in Hc. destruct Hc as (H1 & H2 & H3 & H4).
    apply Forall_cons in Ht as [Hl Ht].
    destruct (draw_link_ops st l) as (gap & x & Hops & _ & Hend & Hgap).
    destruct (IH (step st l) _ _ H4) as [Hb ->]; [lia|done|].
    rewrite Hend in *. split; [lia|].
    rewrite Hops, !text_runs_app, !concat_app, Hgap. simpl.
    rewrite app_nil_r, Hl, <- !app_assoc. f_equal.
    destruct (Nat.ltb_spec st.2 (l_start l)).
    + rewrite !app_assoc, !slice_app; [done|lia..].
    + replace (l_start l) with st.2 by lia. simpl.
      rewrite slice_app; [done|lia..].
Qed.
End OneLine.

(** C7. Every link of a line is drawn as one block of operations at some
    horizontal position [x]: the display text at [(x, y)], the clickable
    rectangle with corners [(x, y - 2)] and [(x + width, y + font_size)]
    bound to the link's target, and the underline from [(x, y - 1)] to
    [(x + width, y - 1)], where [width] is the measured width of the
    display text. *)
Theorem link_run_drawn (line : text) (x0 : coord) (y : Z)
    (font_name : string) (font_size : Z) (l : link) :
  l ∈ _find_links_in_text line ->
  exists pre post x,
    let width := stringWidth (l_text l) font_name font_size in
    (_draw_line_with_links line x0 y font_name font_size).1 =
      pre ++
      [ SetFillColorRGB LINK_BLUE;
        SetFont font_name font_size;
        DrawString x y (l_text l);
        LinkURL (l_url l) (x, y - 2, cadd x width, y + font_size)%Z;
        SetStrokeColorRGB LINK_BLUE;
        Line x (y - 1)%Z (cadd x width) (y - 1)%Z;
        SetFillColorRGB BLACK;
        SetStrokeColorRGB BLACK ] ++ post.
Proof.
  intros Hl. unfold _draw_line_with_links.
  destruct (_find_links_in_text line) as [|l0 links] eqn:E.
  - by apply elem_of_nil in Hl.
  - destruct (draw_fold_contains line y font_name font_size (l0 :: links)
                ([], x0, 0) l Hl) as (pre & post & x & H).
    destruct (foldl _ _ (l0 :: links)) as [[ops cx] last]. simpl in H.
    destruct (last <? length line); simpl; subst ops.
    + exists pre, (post ++ [SetFont font_name font_size;
                            DrawString cx y (drop last line)]), x.
      simpl. by rewrite <- !app_assoc.
    + by exists pre, post, x.
Qed.

(** C8. The clickable rectangles issued for a line correspond one to one,
    in order, to the links the detector returns for that line: the k-th
    rectangle is bound to the target of the k-th link, unchanged, and has
    the shape the renderer gives to that link. *)
Theorem link_rects_match_links (line : text) (x0 : coord) (y : Z)
    (font_name : string) (font_size : Z) :
  Forall2
    (fun r l =>
       r.1 = l_url l /\
       exists x, r.2 = (x, y - 2,
                        cadd x (stringWidth (l_text l) font_name font_size),
                        y + font_size)%Z)
    (link_rects (_draw_line_with_links line x0 y font_name font_size).1)
    (_find_links_in_text line).
Proof.
  unfold _draw_line_with_links.
  destruct (_find_links_in_text line) as [|l0 links] eqn:E; [constructor|].
  pose proof (draw_fold_rects line y font_name font_size (l0 :: links)
                ([], x0, 0) [] (Forall2_nil_2 _ _ _)) as H.
  destruct (foldl _ _ (l0 :: links)) as [[ops cx] last]. simpl in H.
  destruct (last <? length line); simpl; [|done].
  rewrite link_rects_app. simpl. by rewrite app_nil_r.
Qed.

(** C10. When the detector finds at least one link in a line, the text
    runs drawn for the line (gaps, link texts and the tail), concatenated
    in drawing order, are exactly the line. *)
Theorem drawn_runs_cover_line (line : text) (x0 : coord) (y : Z)
    (font_name : string) (font_size : Z) :
  _find_links_in_text line <> [] ->
  concat (text_runs
            (_draw_line_with_links line x0 y font_name font_size).1) = line.
Proof.
  intros Hne. unfold _draw_line_with_links.
  pose proof (find_links_chain line) as Hc.
  pose proof (find_links_text line) as Ht.
  destruct (_find_links_in_text line) as [|l0 links] eqn:E; [done|].
  destruct (draw_fold_text line y font_name font_size (l0 :: links)
              ([], x0, 0) 0 (length line) Hc) as [Hb H]; [done..|].
  destruct (foldl _ _ (l0 :: links)) as [[ops cx] last]. simpl in H, Hb.
  destruct (Nat.ltb_spec last (length line)); simpl.
  - rewrite text_runs_app, concat_app, H. simpl.
    rewrite app_nil_r. apply slice_drop.
  - rewrite H. apply slice_full. done.
Qed.

(** ** The page loop *)

Lemma draw_line_y line x y font_name font_size :
  (_draw_line_with_links line x y font_name font_size).2 =
  (y - (font_size + 2))%Z.
Proof.
  unfold _draw_line_with_links.
  destruct (_find_links_in_text line); [done|].
  by destruct (foldl _ _ _) as [[ops cx] last].
Qed.

Lemma adjacent_snoc {A} (R : A -> A -> Prop) l x :
  adjacent R l -> (forall x', last l = Some x' -> R x' x) ->
  adjacent R (l ++ [x]).
Proof.
  induction l as [|a l IH]; intros Ha Hl; [done|].
  destruct Ha as [Ha1 Ha2]. simpl. split.
  - destruct l as [|b l]; simpl; [by apply Hl|done].
  - apply IH; [done|]. intros x' Hx'. apply Hl.
    destruct l; [done|]. by rewrite last_cons_cons.
Qed.

Lemma adjacent_lookup {A} (R : A -> A -> Prop) l :
  adjacent R l ->
  forall i x x', l !! i = Some x -> l !! S i = Some x' -> R x x'.
Proof.
  induction l as [|a l IH]; intros Ha i x x' H1 H2; [done|].
  destruct Ha as [Ha1 Ha2]. destruct i as [|i].
  - destruct l as [|b l]; [done|]. simpl in *. congruence.
  - by apply (IH Ha2 i).
Qed.

Lemma log_ok_snoc font_size log e :
  log_ok font_size log -> ev_ok e ->
  (forall e', last log = Some e' -> adj font_size e' e) ->
  (log = [] -> is_break e = false /\ ev_y e = page_top) ->
  log_ok font_size (log ++ [e]).
Proof.
  intros (Ha & Hf & Hh) He Hl Hn. split; [|split].
  - by apply adjacent_snoc.
  - apply Forall_app. split; [done|]. by constructor.
  - unfold head_ok in *. destruct log as [|a log]; simpl; intros h.
    + intros [= <-]. by apply Hn.
    + intros [= <-]. by apply (Hh a).
Qed.

Lemma page_top_above_margin : (MARGIN < page_top)%Z.
Proof. unfold page_top, MARGIN, LETTER. simpl. lia. Qed.

Lemma loop_inv_init font_size : loop_inv font_size (page_top, []).
Proof. repeat split; done. Qed.

Lemma cursor_after_adj font_size log e :
  is_break e = false -> ev_y e = cursor_after font_size log ->
  (forall y, last log = Some (Blank y) -> (MARGIN < y - (font_size + 2))%Z) ->
  (forall e', last log = Some e' -> adj font_size e' e) /\
  (log = [] -> is_break e = false /\ ev_y e = page_top).
Proof.
  intros Hb Hy Hl. unfold cursor_after in Hy. split.
  - intros e' He'. rewrite He' in Hy. unfold adj. rewrite Hb.
    repeat split; [done..|].
    intros y -> Hle. specialize (Hl y He'). lia.
  - intros ->. done.
Qed.

Lemma loop_inv_blank font_size st :
  loop_inv font_size st -> loop_inv font_size (blank_step font_size st).
Proof.
  destruct st as [y log]. intros (Hy & Hok & Hl). simpl in *.
  destruct (cursor_after_adj font_size log (Blank y) eq_refl Hy Hl)
    as [Hadj Hnil].
  assert (log_ok font_size (log ++ [Blank y])) as Hok1
    by (by apply log_ok_snoc).
  unfold blank_step. simpl.
  destruct (Z.leb_spec (y - (font_size + 2)) MARGIN) as [Hle|Hgt].
  - replace (log ++ [Blank y; Break (y - (font_size + 2))%Z])
      with ((log ++ [Blank y]) ++ [Break (y - (font_size + 2))%Z])
      by (by rewrite <- app_assoc).
    split; [|split]; simpl.
    + unfold cursor_after. by rewrite last_snoc.
    + apply log_ok_snoc; [done..| |by destruct log].
      intros e'. rewrite last_snoc. intros [= <-]. by repeat split.
    + intros y0. by rewrite last_snoc.
  - split; [|split]; simpl.
    + unfold cursor_after. by rewrite last_snoc.
    + done.
    + intros y0. rewrite last_snoc. by intros [= <-].
Qed.

Lemma loop_inv_line font_name font_size st line :
  loop_inv font_size st ->
  loop_inv font_size (line_step font_name font_size st line).
Proof.
  destruct st as [y log]. intros (Hy & Hok & Hl). simpl in *.
  unfold line_step. simpl.
  destruct (Z.leb_spec y MARGIN) as [Hle|Hgt]; rewrite draw_line_y.
  - assert (log_ok font_size (log ++ [Break y])) as Hok1.
    { apply log_ok_snoc; [done..| |].
      - intros e' He'. unfold cursor_after in Hy. rewrite He' in Hy.
        pose proof page_top_above_margin.
        unfold adj, next_y in *. simpl.
        destruct (is_break e') eqn:Hb; [lia|]. by repeat split.
      - intros ->. unfold cursor_after in Hy. simpl in Hy.
        pose proof page_top_above_margin. lia. }
    split; [|split]; simpl.
    + unfold cursor_after. by rewrite last_snoc.
    + apply log_ok_snoc; [done|apply page_top_above_margin| |by destruct log].
      intros e'. rewrite last_snoc. intros [= <-]. by repeat split.
    + intros y0. by rewrite last_snoc.
  - destruct (cursor_after_adj font_size log (Drawn y line) eq_refl Hy Hl)
      as [Hadj Hnil].
    split; [|split]; simpl.
    + unfold cursor_after. by rewrite last_snoc.
    + by apply log_ok_snoc.
    + intros y0. by rewrite last_snoc.
Qed.

Lemma loop_inv_lines font_name font_size lines :
  forall st, loop_inv font_size st ->
    loop_inv font_size (foldl (line_step font_name font_size) st lines).
Proof.
  induction lines as [|l lines IH]; intros st H; [done|].
  simpl. by apply IH, loop_inv_line.
Qed.

Lemma loop_inv_page_loop font_name font_size cover_letter :
  loop_inv font_size (page_loop font_name font_size cover_letter).
Proof.
  unfold page_loop.
  generalize (loop_inv_init font_size).
  generalize (page_top, @nil event).
  induction (splitlines cover_letter) as [|p ps IH]; intros st H; [done|].
  simpl. apply IH. unfold paragraph_step.
  destruct (strip_is_empty p);
    [by apply loop_inv_blank|by apply loop_inv_lines].
Qed.

(** Steps of one page descend by the leading. *)
Lemma same_page_descent font_size log :
  adjacent (adj font_size) log ->
  forall n i e1 e2,
    log !! i = Some e1 -> log !! (i + n) = Some e2 ->
    same_page log i (i + n) ->
    ev_y e2 = (ev_y e1 - Z.of_nat n * (font_size + 2))%Z.
Proof.
  intros Ha. induction n as [|n IH]; intros i e1 e2 H1 H2 Hp.
  - rewrite Nat.add_0_r in H2. replace e2 with e1 by congruence. lia.
  - destruct (lookup_lt_is_Some_2 log (i + n)) as [e Hmid].
    { apply lookup_lt_Some in H2. lia. }
    assert (ev_y e = (ev_y e1 - Z.of_nat n * (font_size + 2))%Z) as He.
    { apply (IH i); [done..|]. intros k e' Hk. apply Hp. lia. }
    replace (i + S n) with (S (i + n)) in * by lia.
    destruct (adjacent_lookup _ _ Ha _ _ _ Hmid H2) as (Hy & _ & _).
    pose proof (Hp (S (i + n)) e2 ltac:(lia) H2) as Hb2.
    pose proof (Hp (i + n) e ltac:(lia) Hmid) as Hb.
    unfold next_y in Hy. rewrite Hb2, Hb in Hy. lia.
Qed.

Lemma break_cause_app log ext :
  break_cause log ->
  (forall k y, ext !! k = Some (Break y) ->
     (exists k' yb, k = S k' /\ ext !! k' = Some (Blank yb)) \/
     (exists line, ext !! S k = Some (Drawn page_top line))) ->
  break_cause (log ++ ext).
Proof.
  intros Hlog Hext i y Hi.
  destruct (decide (S i < length log)) as [Hlt|Hge].
  - rewrite lookup_app_l in Hi by done.
    destruct (Hlog i y Hi) as [[yb Hb]|[line Hd]].
    + left. exists yb. by apply lookup_app_l_Some.
    + right. exists line. by apply lookup_app_l_Some.
  - rewrite lookup_app_r in Hi by lia.
    destruct (Hext _ _ Hi) as [(k' & yb & Hk & Hb)|[line Hd]].
    + left. exists yb. rewrite lookup_app_r by lia.
      replace (i - length log) with k' by lia. done.
    + right. exists line. rewrite lookup_app_r by lia.
      replace (S (S i) - length log) with (S (S i - length log)) by lia.
      done.
Qed.

Lemma break_cause_blank font_size st :
  break_cause st.2 -> break_cause (blank_step font_size st).2.
Proof.
  intros H. unfold blank_step.
  destruct (_ <=? MARGIN)%Z; cbn [snd]; apply break_cause_app; try done.
  - intros [|[|k]] y Hk; try done.
    left. by exists 0, st.1.
  - by intros [|k] y Hk.
Qed.

Lemma break_cause_line font_name font_size st line :
  break_cause st.2 ->
  break_cause (line_step font_name font_size st line).2.
Proof.
  intros H. unfold line_step.
  destruct (st.1 <=? MARGIN)%Z; cbn [snd].
  - rewrite <- app_assoc. apply break_cause_app; [done|].
    intros [|[|k]] y Hk; try done. right. by exists line.
  - destruct st as [y0 log]. cbn [snd fst] in *.
    apply break_cause_app; [done|]. by intros [|k] y Hk.
Qed.

Lemma break_cause_page_loop font_name font_size cover_letter :
  break_cause (page_loop font_name font_size cover_letter).2.
Proof.
  unfold page_loop.
  assert (break_cause (page_top, @nil event).2) as H0 by (by intros i y).
  revert H0. generalize (page_top, @nil event).
  induction (splitlines cover_letter) as [|p ps IH]; intros st H; [done|].
  simpl. apply IH. unfold paragraph_step.
  destruct (strip_is_empty p); [by apply break_cause_blank|].
  revert st H.
  induction (simpleSplit p font_name font_size _) as [|l ls IHl];
    intros st H; [done|].
  simpl. by apply IHl, break_cause_line.
Qed.

Lemma page_loop_breaks font_name font_size cover_letter :
  breaks_at_margin font_size (page_loop font_name font_size cover_letter).2.
Proof.
  destruct (loop_inv_page_loop font_name font_size cover_letter)
    as (_ & (Ha & Hf & Hh) & Hl).
  rewrite Forall_forall in Hf.
  split; [intros y Hy; apply (Hf _ Hy)|].
  split; [intros y line Hy; apply (Hf _ Hy)|].
  split; [intros e He; apply Hh; by rewrite head_lookup|].
  assert (forall i e1 y,
            (page_loop font_name font_size cover_letter).2 !! i = Some e1 ->
            (page_loop font_name font_size cover_letter).2 !! S i
            = Some (Blank y) ->
            (y <= MARGIN)%Z ->
            exists y' line, e1 = Drawn y' line /\
                            y = (y' - (font_size + 2))%Z) as Hblank.
  { intros i e1 y H1 H2 Hle.
    destruct (adjacent_lookup _ _ Ha _ _ _ H1 H2) as (Hy & _ & Hk).
    pose proof page_top_above_margin as Htop.
    unfold next_y in Hy. simpl in Hy. destruct e1 as [y0|y0|y0 line0].
    - simpl in Hy. specialize (Hk y0 eq_refl). simpl in Hk.
      assert (y0 - (font_size + 2) <= MARGIN)%Z as H0 by lia.
      by specialize (Hk H0).
    - simpl in Hy. lia.
    - by exists y0, line0. }
  split; [|split; [|split; [|exact Hl]]].
  - intros i e1 e2 H1 H2.
    destruct (adjacent_lookup _ _ Ha _ _ _ H1 H2) as (Hy & Hb & Hk).
    split; [|split; [|split]].
    + intros Hb2. split.
      * destruct (is_break e1); [|done]. rewrite Hb in Hb2; done.
      * by rewrite Hb2 in Hy.
    + intros Hb1. split; [auto|].
      rewrite (Hb Hb1) in Hy. unfold next_y in Hy. by rewrite Hb1 in Hy.
    + intros y -> Hle. by apply (Hk y).
    + intros y -> Hle. by apply (Hblank i).
  - intros y [i Hi]%list_elem_of_lookup.
    pose proof page_top_above_margin as Htop.
    destruct (Z.le_gt_cases y MARGIN) as [Hle|Hgt]; [|left; lia].
    destruct i as [|i].
    { rewrite <- head_lookup in Hi. destruct (Hh _ Hi) as [_ Hy].
      simpl in Hy. lia. }
    destruct (lookup_lt_is_Some_2
                (page_loop font_name font_size cover_letter).2 i)
      as [e1 H1].
    { apply lookup_lt_Some in Hi. lia. }
    destruct (Hblank i e1 y H1 Hi Hle) as (y' & line & -> & ->).
    right. assert (MARGIN < y')%Z; [|lia].
    apply (Hf (Drawn y' line)). by eapply list_elem_of_lookup_2.
  - intros i y' line y H1 H2.
    destruct (break_cause_page_loop font_name font_size cover_letter
                i y H2) as [[yb Hb]|Hd]; [congruence|done].
Qed.

(** C5 (amended). When [font_size + 2] is positive: on one page the
    vertical positions of successive steps (drawn lines and blank
    paragraphs) descend by exactly [font_size + 2] per step, so they
    are strictly decreasing; and [showPage] is called exactly where the
    loop checks the cursor and finds it at or below the margin, that is,
    before a line would be drawn there and after a blank paragraph has
    taken it there, after which the next step is at
    [page_height - margin]; a break made before a line is followed by
    that line.  A blank paragraph is processed without a check before
    it: it can be met at or below the margin, but only directly after a
    drawn line and less than one leading below the margin. *)
Theorem page_loop_cursor (font_name : string) (font_size : Z)
    (cover_letter : text) :
  (-2 < font_size)%Z ->
  descends font_size (page_loop font_name font_size cover_letter).2 /\
  breaks_at_margin font_size
    (page_loop font_name font_size cover_letter).2.
Proof.
  intros Hfs. split; [|apply page_loop_breaks].
  destruct (loop_inv_page_loop font_name font_size cover_letter)
    as (_ & (Ha & _ & _) & _).
  intros i j e1 e2 Hij H1 H2 Hp.
  replace j with (i + (j - i)) in H2, Hp by lia.
  rewrite (same_page_descent _ _ Ha _ _ _ _ H1 H2 Hp). split; [done|].
  nia.
Qed.

(** ** The line wrapper *)

Lemma split_aux_words s :
  forall cur, Forall (fun c => isspace c = false) cur ->
    Forall word_ok (split_aux cur s).
Proof.
  induction s as [|c s IH]; intros cur Hc; simpl.
  - destruct cur as [|d cur]; constructor; [|constructor].
    split.
    + intros E. apply (f_equal length) in E.
      rewrite length_rev in E. done.
    + apply Forall_forall. intros x Hx.
      apply list_elem_of_In, in_rev, list_elem_of_In in Hx.
      rewrite Forall_forall in Hc. by apply Hc.
  - destruct (isspace c) eqn:E.
    + destruct cur as [|d cur]; [by apply IH|].
      constructor; [|by apply IH]. split.
      * intros E'. apply (f_equal length) in E'.
        rewrite length_rev in E'. done.
      * apply Forall_forall. intros x Hx.
        apply list_elem_of_In, in_rev, list_elem_of_In in Hx.
        rewrite Forall_forall in Hc. by apply Hc.
    + apply IH. by constructor.
Qed.

Lemma split_words s : Forall word_ok (split s).
Proof. by apply split_aux_words. Qed.

Lemma split_aux_word w :
  Forall (fun c => isspace c = false) w ->
  forall cur rest, split_aux cur (w ++ rest) = split_aux (rev w ++ cur) rest.
Proof.
  induction w as [|c w IH]; intros Hw cur rest; [done|].
  apply Forall_cons in Hw as [Hc Hw]. simpl. rewrite Hc, IH by done.
  by rewrite <- app_assoc.
Qed.

Lemma split_aux_spaced ws :
  Forall word_ok ws ->
  forall cur, cur <> [] ->
    split_aux cur (flat_map (fun v => SPACE :: v) ws) = rev cur :: ws.
Proof.
  induction ws as [|w ws IH]; intros Hws cur Hcur.
  - simpl. by destruct cur.
  - apply Forall_cons in Hws as [[Hne Hw] Hws]. simpl.
    destruct cur as [|d cur]; [done|].
    rewrite split_aux_word by done. rewrite app_nil_r.
    rewrite IH; [by rewrite rev_involutive|done|].
    intros E. apply (f_equal length) in E. rewrite length_rev in E.
    by destruct w.
Qed.

Lemma split_join ws : Forall word_ok ws -> split (join ws) = ws.
Proof.
  destruct ws as [|w ws]; [done|]. intros Hws.
  apply Forall_cons in Hws as [[Hne Hw] Hws].
  unfold split, join. rewrite split_aux_word by done.
  rewrite app_nil_r, split_aux_spaced; [by rewrite rev_involutive|done|].
  intros E. apply (f_equal length) in E. rewrite length_rev in E.
  by destruct w.
Qed.

Section Wrap.
Variable font_name : string.
Variable font_size max_width : Z.

Local Notation "'wrap'" := (greedy_wrap font_name font_size max_width).
Local Notation "'pfit'" := (prefixes_fit font_name font_size max_width).

Lemma prefixes_fit_snoc cur w :
  pfit cur ->
  (cur <> [] -> fits font_name font_size max_width (join (cur ++ [w])) = true) ->
  pfit (cur ++ [w]).
Proof.
  intros Hp Hf n Hn. rewrite length_app in Hn. simpl in Hn.
  destruct (decide (n <= length cur)).
  - rewrite take_app_le by done. apply Hp. lia.
  - rewrite take_ge by (rewrite length_app; simpl; lia).
    apply Hf. destruct cur; [simpl in *; lia|done].
Qed.

(** Each produced line is the join of words whose prefixes fit. *)
Lemma wrap_lines ws :
  forall cur, Forall word_ok ws -> Forall word_ok cur -> pfit cur ->
    Forall (fun L => exists lw, L = join lw /\ lw <> [] /\
                       Forall word_ok lw /\ pfit lw)
      (wrap cur ws).
Proof.
  induction ws as [|w ws IH]; intros cur Hws Hcur Hp; simpl.
  - destruct cur as [|c cur]; constructor; [|constructor].
    by exists (c :: cur).
  - apply Forall_cons in Hws as [Hw Hws].
    destruct cur as [|c cur].
    + apply IH; [done|by constructor|].
      intros n Hn. simpl in Hn. lia.
    + destruct (fits _ _ _ (join ((c :: cur) ++ [w]))) eqn:E.
      * apply IH; [done| |by apply prefixes_fit_snoc].
        apply Forall_app. split; [done|by constructor].
      * constructor; [by exists (c :: cur)|].
        apply IH; [done|by constructor|].
        intros n Hn. simpl in Hn. lia.
Qed.

(** Words whose prefixes all fit stay on one line. *)
Lemma wrap_one_line rest :
  forall cur, cur <> [] -> pfit (cur ++ rest) ->
    wrap cur rest = [join (cur ++ rest)].
Proof.
  induction rest as [|w rest IH]; intros cur Hne Hp; simpl.
  - rewrite app_nil_r. by destruct cur.
  - destruct cur as [|c cur]; [done|].
    assert (fits font_name font_size max_width
              (join ((c :: cur) ++ [w])) = true) as ->.
    { specialize (Hp (S (length (c :: cur)))).
      rewrite cons_middle, app_assoc, take_app_length' in Hp
        by (rewrite length_app; simpl; lia).
      apply Hp. rewrite !length_app. simpl. lia. }
    rewrite IH; [by rewrite <- app_assoc|by destruct cur|].
    by rewrite <- app_assoc.
Qed.
End Wrap.

(** C6. Re-wrapping any line the wrapper produced, against the same
    width and metrics, gives that line back as the only line; and every
    produced line either fits the width or consists of a single word. *)
Theorem simpleSplit_idempotent (paragraph : text) (font_name : string)
    (font_size max_width : Z) (L : text) :
  L ∈ simpleSplit_spec paragraph font_name font_size max_width ->
  simpleSplit_spec L font_name font_size max_width = [L] /\
  (fits font_name font_size max_width L = true \/ split L = [L]).
Proof.
  intros HL. unfold simpleSplit_spec in *.
  pose proof (wrap_lines font_name font_size max_width (split paragraph) []
                (split_words paragraph) (Forall_nil_2 _)) as H.
  rewrite Forall_forall in H.
  destruct (H ltac:(intros n Hn; simpl in Hn; lia) L HL)
    as (lw & -> & Hne & Hw & Hp).
  rewrite split_join by done. split.
  - destruct lw as [|w lw]; [done|]. simpl.
    by rewrite (wrap_one_line font_name font_size max_width lw [w]).
  - destruct lw as [|w [|w' lw]]; [done|right|left].
    + simpl. by rewrite app_nil_r.
    + specialize (Hp (length (w :: w' :: lw))).
      rewrite take_ge in Hp by done. apply Hp. simpl. lia.
Qed.

(** ** Font registration *)

Lemma resolve_font_path_fails h font_name :
  font_name ∉ map unescape_spaces (families h) \/
  _find_system_font_file h font_name = None ->
  _resolve_font_path h font_name = inl FileNotFoundError.
Proof.
  unfold _resolve_font_path. intros [Hf|Hf].
  - rewrite bool_decide_eq_false_2; [done|].
    by rewrite elem_of_list_to_set.
  - rewrite Hf. by destruct (bool_decide _).
Qed.

(** C9 (amended). When the configured font is not yet in the registry
    and no font path is cached, and the family is not among the installed
    families or no file is found for it, the render raises
    [FileNotFoundError] and leaves the world as it was: no operation has
    reached a canvas, and no font, the configured one or any other, has
    been registered. *)
Theorem unresolved_font_is_fatal (h : host) (font_name : string)
    (font_size : Z) (cover_letter : text) (w : world) :
  font_name ∉ registered w ->
  font_path w = None ->
  font_name ∉ map unescape_spaces (families h) \/
    _find_system_font_file h font_name = None ->
  _save_cover_letter_pdf h font_name font_size cover_letter w =
    (w, inl FileNotFoundError).
Proof.
  intros Hreg Hpath Hres.
  unfold _save_cover_letter_pdf, _register_font, bind, get, lift.
  rewrite bool_decide_eq_false_2 by done.
  rewrite Hpath. by rewrite (resolve_font_path_fails h font_name Hres).
Qed.

(** ** More about the detector *)

Lemma rmatch_requires {A} c r :
  requires c r = true ->
  forall b a (k : text -> text -> option A) x,
    rmatch r b a k = Some x ->
    exists m a', a = m ++ a' /\ k (rev m ++ b) a' = Some x /\ c ∈ m.
Proof.
  induction r as [|c'|r1 IH1 r2 IH2|r1 IH1 r2 IH2|r IH|p|p| |c'];
    intros Hr b a k x H; simpl in Hr; try done.
  - simpl in H. destruct a as [|y a]; [done|].
    destruct (N.eqb_spec y c'); [|done]. apply N.eqb_eq in Hr. subst.
    exists [c], a. simpl. repeat split; [done|]. apply list_elem_of_singleton. done.
  - simpl in H. apply orb_true_iff in Hr as [Hr|Hr].
    + destruct (IH1 Hr _ _ _ _ H) as (m1 & a1 & -> & H1 & Hc).
      destruct (rmatch_inv _ _ _ _ _ H1) as (m2 & a2 & -> & H2 & _).
      exists (m1 ++ m2), a2. rewrite rev_app_distr, <- !app_assoc.
      repeat split; [done|]. apply elem_of_app. by left.
    + destruct (rmatch_inv _ _ _ _ _ H) as (m1 & a1 & -> & H1 & _).
      destruct (IH2 Hr _ _ _ _ H1) as (m2 & a2 & -> & H2 & Hc).
      exists (m1 ++ m2), a2. rewrite rev_app_distr, <- !app_assoc.
      repeat split; [done|]. apply elem_of_app. by right.
  - simpl in H. apply andb_true_iff in Hr as [Hr1 Hr2].
    destruct (rmatch r1 b a k) as [y|] eqn:E; simpl in H.
    + injection H as ->. by apply (IH1 Hr1 _ _ _ _ E).
    + by apply (IH2 Hr2 _ _ _ _ H).
Qed.

Lemma match_at_requires c r b a e :
  requires c r = true -> match_at r b a = Some e -> c ∈ a.
Proof.
  intros Hr H. destruct (rmatch_requires c r Hr _ _ _ _ H)
    as (m & a' & -> & _ & Hc).
  apply elem_of_app. by left.
Qed.

Lemma scan_without c r :
  requires c r = true ->
  forall a b skip, c ∉ a -> scan r b a skip = [].
Proof.
  intros Hr. induction a as [|d a IH]; intros b skip Hc; simpl.
  - destruct skip; [|done].
    destruct (match_at r b []) as [e|] eqn:E; [|done].
    by apply (match_at_requires c r _ _ _ Hr) in E.
  - assert (c ∉ a) as Hc' by (intros ?; apply Hc; by right).
    destruct skip; [|by apply IH].
    destruct (match_at r b (d :: a)) as [e|] eqn:E; [|by apply IH].
    by apply (match_at_requires c r _ _ _ Hr) in E.
Qed.

Lemma scan_min_len r :
  forall a b skip,
    Forall (fun m => m.1 + min_len r <= m.2) (scan r b a skip).
Proof.
  induction a as [|c a IH]; intros b skip; simpl.
  - destruct skip; [|constructor].
    destruct (match_at r b []) as [e|] eqn:E; constructor; [|constructor].
    apply match_at_bounds in E. simpl. lia.
  - destruct skip; [|apply IH].
    destruct (match_at r b (c :: a)) as [e|] eqn:E; [|apply IH].
    constructor; [|apply IH]. apply match_at_bounds in E. simpl. lia.
Qed.

Lemma sort_by_start_sorted l :
  forall lo hi, chain lo hi (map span l) -> sort_by_start l = l.
Proof.
  induction l as [|x l IH]; intros lo hi Hc; [done|].
  simpl in Hc. destruct Hc as (H1 & H2 & H3 & H4).
  simpl. rewrite (IH _ _ H4).
  destruct l as [|y l]; [done|]. simpl in *.
  destruct (Nat.leb_spec (l_start x) (l_start y)); [done|]. lia.
Qed.

Lemma length_slice (s : text) i j :
  j <= length s -> length (slice s i j) = j - i.
Proof. intros H. unfold slice. rewrite length_take, length_drop. lia. Qed.

(** X1. Every link the detector returns covers at least four characters
    of the line, ends inside the line, and shows exactly the characters it
    covers: no link is empty or reaches past the end of the line. *)
Theorem find_links_within_line (s : text) :
  Forall (fun l =>
            l_start l + 4 <= l_end l /\ l_end l <= length s /\
            l_text l = slice s (l_start l) (l_end l) /\
            length (l_text l) = l_end l - l_start l)
    (_find_links_in_text s).
Proof.
  pose proof (chain_lower _ _ _ (find_links_chain s)) as Hw.
  pose proof (find_links_text s) as Ht.
  assert (Forall (fun l => l_start l + 4 <= l_end l) (_find_links_in_text s))
    as Hm.
  { rewrite find_links_unfold, sort_by_start_perm.
    apply Forall_app. split; apply Forall_forall; intros l Hl;
      apply list_elem_of_In, in_map_iff in Hl as (m & <- & Hm);
      apply list_elem_of_In in Hm.
    - pose proof (scan_min_len EMAIL_PATTERN s [] 0) as Hs.
      rewrite Forall_forall in Hs. apply Hs in Hm. simpl in Hm.
      unfold l_start, l_end. simpl. lia.
    - apply list_elem_of_filter in Hm as [_ Hm].
      pose proof (scan_min_len URL_PATTERN s [] 0) as Hs.
      rewrite Forall_forall in Hs. apply Hs in Hm. simpl in Hm.
      unfold l_start, l_end. simpl. lia. }
  rewrite Forall_map in Hw.
  rewrite Forall_forall in Hw, Ht, Hm. apply Forall_forall. intros l Hl.
  specialize (Hw l Hl). specialize (Ht l Hl). specialize (Hm l Hl).
  destruct Hw as (_ & _ & Hhi). simpl in Hhi.
  repeat split; [done..|]. rewrite Ht. by apply length_slice.
Qed.

(** X2. The target of every link carries a scheme and ends with the text
    shown: it starts with [mailto:], [http://] or [https://], and the
    display text is its tail. *)
Theorem find_links_target_scheme (s : text) :
  Forall (fun l =>
            (T "mailto:" `prefix_of` l_url l \/
             T "http://" `prefix_of` l_url l \/
             T "https://" `prefix_of` l_url l) /\
            l_text l `suffix_of` l_url l)
    (_find_links_in_text s).
Proof.
  rewrite find_links_unfold, sort_by_start_perm.
  apply Forall_app. split; apply Forall_forall; intros l Hl;
    apply list_elem_of_In, in_map_iff in Hl as (m & <- & _).
  - split; [left; by apply prefix_app_r|].
    by apply suffix_app_r.
  - change (l_text (url_link s m)) with (slice s m.1 m.2).
    change (l_url (url_link s m)) with (url_target (slice s m.1 m.2)).
    unfold url_target.
    destruct (startswith (T "http://") (slice s m.1 m.2)) eqn:E1;
      destruct (startswith (T "https://") (slice s m.1 m.2)) eqn:E2;
      cbn [orb].
    + apply startswith_prefix in E1. split; [right; left; exact E1|done].
    + apply startswith_prefix in E1. split; [right; left; exact E1|done].
    + apply startswith_prefix in E2. split; [right; right; exact E2|done].
    + split; [right; right; by apply prefix_app_r|by apply suffix_app_r].
Qed.

(** X3. A line without a dot has no links. *)
Theorem find_links_need_dot (s : text) :
  chr "." ∉ s -> _find_links_in_text s = [].
Proof.
  intros Hs. rewrite find_links_unfold. unfold finditer.
  rewrite (scan_without (chr ".") EMAIL_PATTERN eq_refl s [] 0 Hs).
  rewrite (scan_without (chr ".") URL_PATTERN eq_refl s [] 0 Hs).
  done.
Qed.

(** X4. In a line without an at-sign nothing is claimed, so the detector
    returns exactly the matches of the URL pattern, in the order found. *)
Theorem find_links_without_at (s : text) :
  chr "@" ∉ s ->
  _find_links_in_text s = map (url_link s) (finditer URL_PATTERN s).
Proof.
  intros Hs.
  assert (finditer EMAIL_PATTERN s = []) as He
    by apply (scan_without (chr "@") EMAIL_PATTERN eq_refl s [] 0 Hs).
  rewrite find_links_unfold. unfold email_pass. rewrite He. simpl.
  assert (filter (fun m => overlaps ∅ m = false) (finditer URL_PATTERN s)
          = finditer URL_PATTERN s) as ->.
  { induction (finditer URL_PATTERN s) as [|m l IH]; [done|].
    rewrite filter_cons, IH. rewrite decide_True; [done|].
    apply overlaps_false. intros i _. apply not_elem_of_empty. }
  apply (sort_by_start_sorted _ 0 (length s)).
  rewrite span_url_link. apply finditer_chain, min_len_url.
Qed.

(** ** More about drawing one line *)

Lemma side_by_side_app font_name font_size y a :
  forall x b,
    side_by_side font_name font_size x y a ->
    side_by_side font_name font_size (end_x font_name font_size x a) y b ->
    side_by_side font_name font_size x y (a ++ b).
Proof.
  induction a as [|c a IH]; intros x b Ha Hb; [done|].
  destruct Ha as (H1 & H2 & H3). simpl. repeat split; [done..|].
  by apply IH.
Qed.

Lemma end_x_app font_name font_size x a b :
  end_x font_name font_size x (a ++ b) =
  end_x font_name font_size (end_x font_name font_size x a) b.
Proof. unfold end_x. by rewrite foldl_app. Qed.

Lemma run_boxes_app a b : run_boxes (a ++ b) = run_boxes a ++ run_boxes b.
Proof. apply omap_app. Qed.

Lemma draw_link_boxes line y font_name font_size st l :
  exists boxes,
    run_boxes (draw_link line y font_name font_size st l).1.1 =
      run_boxes st.1.1 ++ boxes /\
    side_by_side font_name font_size st.1.2 y boxes /\
    end_x font_name font_size st.1.2 boxes =
      (draw_link line y font_name font_size st l).1.2.
Proof.
  destruct st as [[ops cx] last], l as [[[st en] d] u].
  unfold draw_link. simpl. destruct (last <? st).
  - exists [(cx, y, slice line last st);
            (cadd cx (stringWidth (slice line last st) font_name font_size),
             y, d)].
    cbn [fst snd]. rewrite !run_boxes_app, <- app_assoc. simpl. done.
  - exists [(cx, y, d)]. cbn [fst snd]. rewrite run_boxes_app. simpl. done.
Qed.

Lemma draw_fold_boxes line y font_name font_size x0 links :
  forall st,
    side_by_side font_name font_size x0 y (run_boxes st.1.1) ->
    end_x font_name font_size x0 (run_boxes st.1.1) = st.1.2 ->
    let st' := foldl (draw_link line y font_name font_size) st links in
    side_by_side font_name font_size x0 y (run_boxes st'.1.1) /\
    end_x font_name font_size x0 (run_boxes st'.1.1) = st'.1.2.
Proof.
  induction links as [|l links IH]; intros st H1 H2; [done|].
  simpl. apply IH;
    destruct (draw_link_boxes line y font_name font_size st l)
      as (boxes & -> & Hs & He).
  - apply side_by_side_app; [done|]. by rewrite H2.
  - by rewrite end_x_app, H2.
Qed.

(** X5. The text runs of a line are laid side by side: all at the height
    of the line, the first at the left edge passed in, each next one
    starting where the one before ends, that is at the previous position
    plus the measured width of the previous run. *)
Theorem runs_side_by_side (line : text) (x0 : coord) (y : Z)
    (font_name : string) (font_size : Z) :
  side_by_side font_name font_size x0 y
    (run_boxes (_draw_line_with_links line x0 y font_name font_size).1).
Proof.
  unfold _draw_line_with_links.
  destruct (_find_links_in_text line) as [|l0 links]; [done|].
  destruct (draw_fold_boxes line y font_name font_size x0 (l0 :: links)
              ([], x0, 0) I eq_refl) as [Hs He].
  destruct (foldl _ _ (l0 :: links)) as [[ops cx] last]. simpl in *.
  destruct (last <? length line); simpl; [|done].
  rewrite run_boxes_app. apply side_by_side_app; [done|].
  rewrite He. done.
Qed.

Lemma painted_app a :
  forall c b, painted c (a ++ b) = painted c a ++ painted (fill_after c a) b.
Proof.
  induction a as [|o a IH]; intros c b; [done|].
  destruct o; simpl; rewrite ?IH; done.
Qed.

Lemma fill_after_app c a b :
  fill_after c (a ++ b) = fill_after (fill_after c a) b.
Proof. unfold fill_after. by rewrite foldl_app. Qed.

Lemma stroke_after_app c a b :
  stroke_after c (a ++ b) = stroke_after (stroke_after c a) b.
Proof. unfold stroke_after. by rewrite foldl_app. Qed.

Lemma blue_texts_app a b : blue_texts (a ++ b) = blue_texts a ++ blue_texts b.
Proof. apply omap_app. Qed.

Lemma blue_texts_black runs :
  Forall (fun r : text * rgb => r.2 = BLACK) runs -> blue_texts runs = [].
Proof.
  induction 1 as [|r runs Hr _ IH]; [done|].
  change (blue_texts (r :: runs))
    with (match (if rgb_eqb r.2 LINK_BLUE then Some r.1 else None) with
          | Some t => t :: blue_texts runs
          | None => blue_texts runs
          end).
  rewrite Hr, IH. done.
Qed.

(** One link: black is restored, and the runs added are black gap text
    followed by the link text in the link colour. *)
Lemma draw_link_colours line y font_name font_size st l :
  fill_after BLACK st.1.1 = BLACK ->
  stroke_after BLACK st.1.1 = BLACK ->
  let st' := draw_link line y font_name font_size st l in
  fill_after BLACK st'.1.1 = BLACK /\
  stroke_after BLACK st'.1.1 = BLACK /\
  exists gap,
    painted BLACK st'.1.1 =
      painted BLACK st.1.1 ++ gap ++ [(l_text l, LINK_BLUE)] /\
    Forall (fun r : text * rgb => r.2 = BLACK) gap.
Proof.
  destruct st as [[ops cx] last], l as [[[st en] d] u].
  cbn [fst snd]. intros Hf Hs. unfold draw_link.
  destruct (last <? st); cbn [fst snd].
  - rewrite !fill_after_app, !stroke_after_app, !painted_app,
      !fill_after_app, Hf, Hs.
    split; [done|]. split; [done|].
    exists [(slice line last st, BLACK)]. split.
    + by rewrite <- app_assoc.
    + by repeat constructor.
  - rewrite !fill_after_app, !stroke_after_app, !painted_app, Hf, Hs.
    split; [done|]. split; [done|].
    exists []. split; [done|constructor].
Qed.

(** What the colour bookkeeping of a line looks like so far. *)
Lemma draw_fold_colours line y font_name font_size links :
  forall st done_,
    fill_after BLACK st.1.1 = BLACK ->
    stroke_after BLACK st.1.1 = BLACK ->
    Forall (fun r => r.2 = BLACK \/ r.2 = LINK_BLUE) (painted BLACK st.1.1) ->
    blue_texts (painted BLACK st.1.1) = map l_text done_ ->
    let st' := foldl (draw_link line y font_name font_size) st links in
    fill_after BLACK st'.1.1 = BLACK /\
    stroke_after BLACK st'.1.1 = BLACK /\
    Forall (fun r => r.2 = BLACK \/ r.2 = LINK_BLUE) (painted BLACK st'.1.1) /\
    blue_texts (painted BLACK st'.1.1) = map l_text (done_ ++ links).
Proof.
  induction links as [|l links IH]; intros st done_ Hf Hs Hp Hb.
  - simpl. by rewrite app_nil_r.
  - simpl.
    replace (done_ ++ l :: links) with ((done_ ++ [l]) ++ links)
      by (by rewrite <- app_assoc).
    destruct (draw_link_colours line y font_name font_size st l Hf Hs)
      as (Hf' & Hs' & gap & Hg & Hblack).
    apply IH; [done|done| |].
    + rewrite Hg, !Forall_app. split; [done|]. split.
      * eapply Forall_impl; [exact Hblack|]. intros r ?. by left.
      * constructor; [by right|constructor].
    + rewrite Hg, !blue_texts_app, Hb, (blue_texts_black _ Hblack), map_app.
      done.
Qed.

(** X6. Colours do not leak: with black in force before a line, every text
    run of the line is drawn in black or in the link colour, the runs in
    the link colour are exactly the display texts of the detected links,
    in order, and black is in force again for fill and stroke when the
    line is done. *)
Theorem link_colour_confined (line : text) (x0 : coord) (y : Z)
    (font_name : string) (font_size : Z) :
  let ops := (_draw_line_with_links line x0 y font_name font_size).1 in
  Forall (fun r => r.2 = BLACK \/ r.2 = LINK_BLUE) (painted BLACK ops) /\
  blue_texts (painted BLACK ops) = map l_text (_find_links_in_text line) /\
  fill_after BLACK ops = BLACK /\
  stroke_after BLACK ops = BLACK.
Proof.
  unfold _draw_line_with_links.
  destruct (_find_links_in_text line) as [|l0 links].
  - simpl. repeat split; try done. constructor; [by left|constructor].
  - destruct (draw_fold_colours line y font_name font_size (l0 :: links)
                ([], x0, 0) [] eq_refl eq_refl (Forall_nil_2 _) eq_refl)
      as (Hf & Hs & Hp & Hb).
    destruct (foldl _ _ (l0 :: links)) as [[ops cx] last]. simpl in *.
    destruct (last <? length line); simpl; [|done].
    rewrite painted_app, fill_after_app, stroke_after_app, Hf, Hs.
    simpl. rewrite blue_texts_app, Hb, Forall_app. simpl.
    rewrite app_nil_r. repeat split; try done.
    constructor; [by left|constructor].
Qed.

(** ** More about the page loop *)

Lemma log_steps_app a b : log_steps (a ++ b) = log_steps a ++ log_steps b.
Proof. apply omap_app. Qed.

Lemma log_steps_blank font_size st :
  log_steps (blank_step font_size st).2 = log_steps st.2 ++ [None].
Proof.
  unfold blank_step. destruct (_ <=? _)%Z; simpl;
    by rewrite log_steps_app.
Qed.

Lemma log_steps_lines font_name font_size lines :
  forall st,
    log_steps (foldl (line_step font_name font_size) st lines).2 =
    log_steps st.2 ++ map Some lines.
Proof.
  induction lines as [|l lines IH]; intros st; simpl.
  - by rewrite app_nil_r.
  - rewrite IH. unfold line_step. destruct st as [y log]. simpl.
    destruct (y <=? MARGIN)%Z; simpl;
      rewrite !log_steps_app; simpl; by rewrite <- !app_assoc.
Qed.

Lemma log_steps_paragraphs font_name font_size ps :
  forall st,
    log_steps (foldl (paragraph_step font_name font_size) st ps).2 =
    log_steps st.2 ++
    flat_map
      (fun p =>
         if strip_is_empty p then [None]
         else map Some
                (simpleSplit p font_name font_size (LETTER.1 - 2 * MARGIN)%Z))
      ps.
Proof.
  induction ps as [|p ps IH]; intros st.
  - simpl. by rewrite app_nil_r.
  - cbn [foldl flat_map]. rewrite IH. unfold paragraph_step.
    destruct (strip_is_empty p).
    + by rewrite log_steps_blank, <- app_assoc.
    + by rewrite log_steps_lines, <- app_assoc.
Qed.

Lemma page_loop_steps font_name font_size cover_letter :
  log_steps (page_loop font_name font_size cover_letter).2 =
  steps_of font_name font_size cover_letter.
Proof. unfold page_loop. by rewrite log_steps_paragraphs. Qed.

(** X7. Page breaks neither drop nor repeat anything: the loop handles
    every blank paragraph and every wrapped line of the document exactly
    once, in document order. *)
Theorem page_loop_handles_every_step (font_name : string) (font_size : Z)
    (cover_letter : text) :
  log_steps (page_loop font_name font_size cover_letter).2 =
  steps_of font_name font_size cover_letter.
Proof. apply page_loop_steps. Qed.

(** Where a step sits: never above the top of the page, and below it by
    at most one leading per step handled before. *)
Lemma slot_bounds font_size log :
  adjacent (adj font_size) log -> head_ok log -> (0 <= font_size + 2)%Z ->
  forall k e, log !! k = Some e -> is_break e = false ->
    (page_top - Z.of_nat (length (log_steps (take k log))) * (font_size + 2)
       <= ev_y e <= page_top)%Z.
Proof.
  intros Ha Hh Hs. induction k as [|k IH]; intros e He Hb.
  - rewrite <- head_lookup in He. destruct (Hh e He) as [_ ->].
    simpl. lia.
  - destruct (lookup_lt_is_Some_2 log k) as [e' He'].
    { apply lookup_lt_Some in He. lia. }
    destruct (adjacent_lookup _ _ Ha _ _ _ He' He) as (Hy & _ & _).
    rewrite Hb in Hy. unfold next_y in Hy.
    rewrite (take_S_r _ _ _ He'), log_steps_app, length_app.
    destruct (is_break e') eqn:Hb'.
    + rewrite Hy. split; [|lia].
      assert (0 <= Z.of_nat (length (log_steps (take k log)) +
                             length (log_steps [e'])) * (font_size + 2))%Z
        by (apply Z.mul_nonneg_nonneg; lia).
      lia.
    + specialize (IH e' He' Hb').
      assert (length (log_steps [e']) = 1) as ->
        by (by destruct e').
      rewrite Hy. split; [|lia]. nia.
Qed.

(** X8. A page holds a bounded number of steps: with a positive leading,
    a drawn line and any earlier step of the same page are fewer than
    [(page_top - MARGIN) / (font_size + 2)] steps apart (at 12 points:
    at most 47 steps to a page). *)
Theorem page_capacity (font_name : string) (font_size : Z)
    (cover_letter : text) (i j : nat) (e1 : event) (y : Z) (line : text) :
  (-2 < font_size)%Z ->
  i <= j ->
  (page_loop font_name font_size cover_letter).2 !! i = Some e1 ->
  (page_loop font_name font_size cover_letter).2 !! j = Some (Drawn y line) ->
  same_page (page_loop font_name font_size cover_letter).2 i j ->
  (Z.of_nat (j - i) * (font_size + 2) < page_top - MARGIN)%Z.
Proof.
  intros Hfs Hij H1 H2 Hp.
  destruct (loop_inv_page_loop font_name font_size cover_letter)
    as (_ & (Ha & Hf & Hh) & _).
  pose proof (Hp i e1 ltac:(lia) H1) as Hb1.
  destruct (slot_bounds font_size _ Ha Hh ltac:(lia) i e1 H1 Hb1) as [_ Htop].
  rewrite Forall_forall in Hf.
  assert (ev_ok (Drawn y line)) as Hy.
  { apply Hf. eapply list_elem_of_lookup_2. exact H2. }
  simpl in Hy.
  replace j with (i + (j - i)) in H2, Hp by lia.
  pose proof (same_page_descent _ _ Ha _ _ _ _ H1 H2 Hp) as Hd.
  simpl in Hd. lia.
Qed.

(** X9. A short document stays on one page: when the steps of the
    document, at one leading each, do not use up the height between the
    margins, the loop never calls [showPage]. *)
Theorem short_document_single_page (font_name : string) (font_size : Z)
    (cover_letter : text) :
  (-2 <= font_size)%Z ->
  (Z.of_nat (length (steps_of font_name font_size cover_letter))
     * (font_size + 2) < page_top - MARGIN)%Z ->
  Forall (fun e => is_break e = false)
    (page_loop font_name font_size cover_letter).2.
Proof.
  intros Hfs Hn.
  rewrite <- page_loop_steps in Hn.
  destruct (loop_inv_page_loop font_name font_size cover_letter)
    as (_ & (Ha & Hf & Hh) & _).
  set (log := (page_loop font_name font_size cover_letter).2) in *.
  rewrite Forall_forall in Hf. apply Forall_forall. intros e He.
  destruct (is_break e) eqn:Hb; [exfalso|done].
  pose proof (Hf e He) as Hy.
  apply list_elem_of_lookup in He as [i Hi].
  destruct i as [|k].
  { rewrite <- head_lookup in Hi. destruct (Hh e Hi). congruence. }
  destruct (lookup_lt_is_Some_2 log k) as [e' He'].
  { apply lookup_lt_Some in Hi. lia. }
  destruct (adjacent_lookup _ _ Ha _ _ _ He' Hi) as (Hy' & Hb' & _).
  rewrite Hb in Hy'.
  assert (is_break e' = false) as Hb1.
  { destruct (is_break e'); [|done]. specialize (Hb' eq_refl). congruence. }
  destruct (slot_bounds font_size _ Ha Hh ltac:(lia) k e' He' Hb1) as [Hlo _].
  assert (length (log_steps (take k log)) + 1 <= length (log_steps log)) as Hlen.
  { rewrite <- (take_drop (S k) log) at 2.
    rewrite (take_S_r _ _ _ He'), !log_steps_app, !length_app.
    assert (length (log_steps [e']) = 1) as -> by (by destruct e').
    lia. }
  destruct e as [y0|y0|y0 l0]; try done. simpl in Hy, Hy'.
  nia.
Qed.

(** ** More about fonts and the whole render *)

Lemma register_font_effect h font_name w :
  canvas (_register_font h font_name w).1 = canvas w /\
  registered w ⊆ registered (_register_font h font_name w).1 /\
  ((_register_font h font_name w).2 = inr tt ->
   font_name ∈ registered (_register_font h font_name w).1).
Proof.
  unfold _register_font, bind, get, lift, set_font_path, check, ret, raise,
    register.
  destruct (bool_decide (font_name ∈ registered w)) eqn:E.
  { apply bool_decide_eq_true in E. simpl. done. }
  destruct (font_path w) as [p|]; simpl.
  - destruct (ttfont_loads h font_name p); simpl.
    + repeat split; [set_solver|set_solver].
    + repeat split; [done|done].
  - destruct (_resolve_font_path h font_name) as [e|p]; simpl; [done|].
    destruct (ttfont_loads h font_name p); simpl.
    + repeat split; [set_solver|set_solver].
    + repeat split; [done|done].
Qed.

(** X10. How a render ends.  On success the canvas has received the
    operations of the page loop followed by a single [save], and the
    configured font is registered.  On failure either nothing at all was
    drawn (the font, or the output directory, could not be set up) or the
    whole document was drawn and only [save] itself failed with an
    [OSError]. *)
Theorem render_outcome (h : host) (font_name : string) (font_size : Z)
    (cover_letter : text) (w : world) :
  let r := _save_cover_letter_pdf h font_name font_size cover_letter w in
  let page_ops :=
    flat_map (event_ops font_name font_size)
      (page_loop font_name font_size cover_letter).2 in
  match r.2 with
  | inr _ =>
      canvas r.1 = canvas w ++ page_ops ++ [Save] /\
      font_name ∈ registered r.1
  | inl e =>
      canvas r.1 = canvas w \/
      (e = OSError /\ save_ok h = false /\ canvas r.1 = canvas w ++ page_ops)
  end.
Proof.
  destruct (register_font_effect h font_name w) as (Hc & _ & Hr).
  unfold _save_cover_letter_pdf, bind.
  destruct (_register_font h font_name w) as [w1 [e|[]]]; simpl in *.
  { by left. }
  unfold check, register_all, emit, ret, raise.
  destruct (mkdir_ok h); simpl; [|by left].
  destruct (save_ok h); simpl.
  - rewrite Hc, <- app_assoc. split; [done|].
    apply elem_of_union_l. by apply Hr.
  - right. by rewrite Hc.
Qed.

Lemma first_some_Some {A B} (f : A -> option B) l y :
  first_some f l = Some y -> exists x, x ∈ l /\ f x = Some y.
Proof.
  unfold first_some. intros H.
  apply head_Some_elem_of, list_elem_of_omap in H. done.
Qed.

Lemma find_system_font_file_Some h family p :
  _find_system_font_file h family = Some p ->
  path_exists h p = true /\
  ((darwin h = true /\
    exists stem ext, stem ∈ file_stems family /\ ext ∈ FONT_EXTENSIONS /\
                     p ∈ mdfind h (stem +:+ ext)) \/
   (exists d stem ext,
      d ∈ _font_search_dirs h /\ stem ∈ file_stems family /\
      ext ∈ FONT_EXTENSIONS /\
      p = (d +:+ "/" +:+ stem +:+ ext)%string)).
Proof.
  unfold _find_system_font_file.
  destruct (if darwin h then _ else None) as [found|] eqn:E.
  - intros [= ->]. destruct (darwin h) eqn:Hd; [|done].
    apply first_some_Some in E as (stem & Hstem & E).
    apply first_some_Some in E as (ext & Hext & E).
    unfold _mdfind_font in E. rewrite Hd in E.
    apply head_Some_elem_of, list_elem_of_filter in E as [Hp Hin].
    split; [done|]. left. split; [done|]. by exists stem, ext.
  - intros H.
    apply first_some_Some in H as (d & Hd & H).
    apply first_some_Some in H as (stem & Hstem & H).
    apply first_some_Some in H as (ext & Hext & H).
    destruct (path_exists h _) eqn:Hp; [|done].
    injection H as <-. split; [done|]. right. by exists d, stem, ext.
Qed.

(** X11. A font path that is resolved names a file that exists on the
    host, for a family that is among the installed families (with escaped
    spaces in their names read as spaces). *)
Theorem resolved_font_exists (h : host) (font_name p : string) :
  _resolve_font_path h font_name = inr p ->
  path_exists h p = true /\
  font_name ∈ map unescape_spaces (families h).
Proof.
  unfold _resolve_font_path.
  destruct (bool_decide _) eqn:E; [|done].
  apply bool_decide_eq_true, elem_of_list_to_set in E.
  destruct (_find_system_font_file h font_name) as [q|] eqn:F; [|done].
  intros [= ->]. split; [|done].
  by destruct (find_system_font_file_Some h font_name p F).
Qed.

(** X12. Off macOS the file search is a plain directory search: the font
    file found is a file [directory/stem.ext] where the directory is one
    of the seven search directories and exists, the stem is one of the
    five spellings of the family name, and the extension is one of
    [.ttf], [.otf], [.ttc]. *)
Theorem font_file_shape (h : host) (family p : string) :
  darwin h = false ->
  _find_system_font_file h family = Some p ->
  exists d stem ext,
    d ∈ [ project_root h +:+ "/fonts"; home h +:+ "/Library/Fonts";
          "/Library/Fonts"; "/System/Library/Fonts";
          "/System/Library/Fonts/Supplemental"; "/usr/share/fonts";
          "/usr/local/share/fonts" ]%string /\
    path_exists h d = true /\
    stem ∈ [ family; replace_char " " "" family;
             replace_char " " "-" family;
             family +:+ " Regular"; family +:+ "-Regular" ]%string /\
    ext ∈ [ ".ttf"; ".otf"; ".ttc" ]%string /\
    p = (d +:+ "/" +:+ stem +:+ ext)%string /\
    path_exists h p = true.
Proof.
  intros Hd H.
  destruct (find_system_font_file_Some h family p H)
    as [Hp [[Hd' _]|(d & stem & ext & Hdir & Hstem & Hext & ->)]];
    [congruence|].
  apply list_elem_of_filter in Hdir as [Hex Hdir].
  exists d, stem, ext. done.
Qed.

(** X13. Registering a font is idempotent: after a successful
    registration the font is in the registry, nothing was removed from
    it or drawn, and registering the same font again, on any host,
    succeeds without changing anything. *)
Theorem register_font_idempotent (h h' : host) (font_name : string)
    (w w' : world) :
  _register_font h font_name w = (w', inr tt) ->
  font_name ∈ registered w' /\
  registered w ⊆ registered w' /\
  canvas w' = canvas w /\
  _register_font h' font_name w' = (w', inr tt).
Proof.
  intros H. destruct (register_font_effect h font_name w) as (Hc & Hs & Hr).
  rewrite H in Hc, Hs, Hr. simpl in *. specialize (Hr eq_refl).
  repeat split; [done..|].
  unfold _register_font, bind, get, ret.
  by rewrite bool_decide_eq_true_2.
Qed.

(** ** The application *)

Lemma app_run_invariant (P : FileUploadApp -> Prop) h E PDF_FILENAME :
  (forall a ev, P a -> P (app_step h E PDF_FILENAME a ev)) ->
  forall evs a, P a -> P (app_run h E PDF_FILENAME a evs).
Proof.
  intros Hstep. induction evs as [|ev evs IH]; intros a Ha; [done|].
  apply IH, Hstep, Ha.
Qed.

Lemma generation_step h E PDF_FILENAME a ev :
  let inv := fun a =>
    length (jobs a) = (if _generation_in_progress a then 1 else 0) /\
    Forall (fun j =>
              _current_job_description a = Some (j_job_description j) /\
              strip_is_empty (j_job_description j) = false /\
              j_resume_path j <> EmptyString) (jobs a) in
  inv a -> inv (app_step h E PDF_FILENAME a ev).
Proof.
  intros inv. unfold inv, jobs. intros [Hlen Hall].
  destruct ev as [s filepath|clipboard|i| |d env_file read_ok write_ok];
    cbn [app_step].
  - unfold _select_file. by destruct filepath.
  - unfold _handle_paste_event.
    destruct (_generation_in_progress a) eqn:Hp; [by rewrite Hp|].
    destruct (resume_file a) as [[|c p]|]; try (by rewrite Hp).
    destruct clipboard as [jd|]; [|by rewrite Hp].
    destruct (strip_is_empty jd) eqn:Hjd; [by rewrite Hp|].
    destruct (workers a) as [|j0 ws]; [|simpl in Hlen; lia].
    destruct (callbacks a) as [|c0 cs]; [|simpl in Hlen; lia].
    simpl. split; [done|]. by repeat constructor.
  - destruct (workers a !! i) as [j|] eqn:Hi; [|done].
    unfold _generate_cover_letter. cbn [workers callbacks
      _generation_in_progress _current_job_description].
    rewrite length_app, length_map in Hlen.
    apply lookup_lt_Some in Hi as Hlt.
    split.
    { rewrite map_app, !length_app, !length_map.
      rewrite length_delete by (by rewrite Hi). cbn [length]. lia. }
    rewrite map_app.
    apply Forall_app in Hall as [Hw Hc].
    apply Forall_app. split; [by apply Forall_delete|].
    apply Forall_app. split; [done|].
    constructor; [|done]. rewrite Forall_forall in Hw.
    by eapply Hw, list_elem_of_lookup_2.
  - destruct (callbacks a) as [|[j r] rest] eqn:Hc; [by rewrite Hc|].
    rewrite length_app in Hlen. cbn [map length] in Hlen.
    destruct (_generation_in_progress a); [|lia].
    destruct (workers a) as [|j0 ws] eqn:Hw; [|simpl in Hlen; lia].
    destruct rest as [|c1 rest]; [|simpl in Hlen; lia].
    destruct r; unfold _on_generation_succeeded, _on_generation_failed;
      cbn [workers callbacks _generation_in_progress
           _current_job_description]; by rewrite ?Hw.
  - unfold save_preferences.
    by destruct (numeric_vars d) as [[[[[? ?] ?] ?] ?]|].
Qed.

(** X20. At most one generation is under way at any time: threads still
    running and results still queued together number one while the
    in-progress flag is set and none otherwise, and the one under way is
    for the job description stored by the last accepted paste, which is
    not blank, and for a resume path that is not empty. *)
Theorem one_generation_at_a_time (h : host) (E : llm_env)
    (PDF_FILENAME : text) (loaded : settings) (fonts : gset string)
    (module : llm_state) (resume sample : option string)
    (evs : list action) :
  let a := app_run h E PDF_FILENAME
             (FileUploadApp_init loaded fonts module resume sample) evs in
  length (jobs a) = (if _generation_in_progress a then 1 else 0) /\
  Forall (fun j =>
            _current_job_description a = Some (j_job_description j) /\
            strip_is_empty (j_job_description j) = false /\
            j_resume_path j <> EmptyString) (jobs a).
Proof.
  apply (app_run_invariant
           (fun a =>
              length (jobs a) = (if _generation_in_progress a then 1 else 0) /\
              Forall (fun j =>
                        _current_job_description a
                        = Some (j_job_description j) /\
                        strip_is_empty (j_job_description j) = false /\
                        j_resume_path j <> EmptyString) (jobs a))).
  - intros a ev. apply generation_step.
  - by split.
Qed.

(** X21. When the main loop is about to run the callback of a finished
    generation, the name of the PDF is the name generated from the job
    description that generation was started with, followed by [.pdf];
    the default file name is not used. *)
Theorem pdf_named_after_its_job (h : host) (E : llm_env)
    (PDF_FILENAME : text) (loaded : settings) (fonts : gset string)
    (module : llm_state) (resume sample : option string)
    (evs : list action) (j : job) (r : llm_exn + text)
    (rest : list (job * (llm_exn + text))) :
  let a := app_run h E PDF_FILENAME
             (FileUploadApp_init loaded fonts module resume sample) evs in
  callbacks a = (j, r) :: rest ->
  _get_dynamic_filename E PDF_FILENAME (llm a) (_current_job_description a)
  = ((generate_filename E (llm a) (j_job_description j)).1,
     (generate_filename E (llm a) (j_job_description j)).2 ++ T ".pdf").
Proof.
  intros a Hc.
  pose proof (app_run_invariant _ h E PDF_FILENAME
                (fun a ev => generation_step h E PDF_FILENAME a ev) evs
                (FileUploadApp_init loaded fonts module resume sample))
    as Hinv.
  destruct Hinv as [_ Hall]; [by split|]. fold a in Hall.
  unfold jobs in Hall. rewrite Hc in Hall.
  apply Forall_app in Hall as [_ Hall].
  apply Forall_cons in Hall as [(Hcur & Hne & _) _]. cbn [fst] in *.
  rewrite Hcur. unfold _get_dynamic_filename.
  by destruct (j_job_description j).
Qed.

Lemma register_font_path h font_name w :
  font_path (_register_font h font_name w).1 = font_path w \/
  exists p, font_path (_register_font h font_name w).1 = Some p /\
            _resolve_font_path h font_name = inr p.
Proof.
  unfold _register_font, bind, get, lift, set_font_path, check, ret, raise,
    register.
  destruct (bool_decide (font_name ∈ registered w)); [by left|].
  destruct (font_path w) as [p|] eqn:Hp; simpl.
  - destruct (ttfont_loads h font_name p); simpl; by left.
  - destruct (_resolve_font_path h font_name) as [e|p]; simpl; [by left|].
    right. exists p. by destruct (ttfont_loads h font_name p).
Qed.

Lemma save_pdf_font_path h font_name font_size cover_letter w :
  font_path (_save_cover_letter_pdf h font_name font_size cover_letter w).1
  = font_path (_register_font h font_name w).1.
Proof.
  unfold _save_cover_letter_pdf, bind.
  destruct (_register_font h font_name w) as [w1 [e|[]]]; [done|].
  unfold check, emit, ret, raise.
  destruct (mkdir_ok h); simpl; [|done].
  by destruct (save_ok h).
Qed.

Lemma font_cache_step h E PDF_FILENAME a ev :
  let inv := fun a =>
    forall p, font_path (pdf a) = Some p ->
              _resolve_font_path h (s_font_name (_settings a)) = inr p in
  inv a -> inv (app_step h E PDF_FILENAME a ev).
Proof.
  intros inv. unfold inv. intros Ha.
  destruct ev as [s filepath|clipboard|i| |d env_file read_ok write_ok];
    cbn [app_step].
  - unfold _select_file. by destruct filepath.
  - unfold _handle_paste_event.
    destruct (_generation_in_progress a); [done|].
    destruct (resume_file a) as [[|c p]|]; try done.
    destruct clipboard as [jd|]; [|done].
    by destruct (strip_is_empty jd).
  - by destruct (workers a !! i).
  - destruct (callbacks a) as [|[j [e|cover_letter]] rest]; [done..|].
    unfold _on_generation_succeeded.
    cbn [pdf _settings]. rewrite save_pdf_font_path.
    destruct (register_font_path h (s_font_name (_settings a)) (pdf a))
      as [->|(p & -> & Hp)]; [done|]. by intros ? [= <-].
  - unfold save_preferences.
    by destruct (numeric_vars d) as [[[[[? ?] ?] ?] ?]|].
Qed.

(** X22. In every state the application reaches on a host, a cached font
    path is the path of the font now configured.  So when that font is
    not in the registry, which holds the fonts registered by earlier
    renders and the library's own fonts once a canvas was created, and
    cannot be resolved, a render fails with the error of the lookup and
    changes nothing: no operation is drawn and no other font is tried. *)
Theorem unresolved_font_fatal_in_app (h : host) (E : llm_env)
    (PDF_FILENAME : text) (loaded : settings) (fonts : gset string)
    (module : llm_state) (resume sample : option string)
    (evs : list action) (cover_letter : text) (e : exn) :
  let a := app_run h E PDF_FILENAME
             (FileUploadApp_init loaded fonts module resume sample) evs in
  let font_name := s_font_name (_settings a) in
  font_name ∉ registered (pdf a) ->
  _resolve_font_path h font_name = inl e ->
  (forall p, font_path (pdf a) = Some p ->
             _resolve_font_path h font_name = inr p) /\
  _save_cover_letter_pdf h font_name (s_font_size (_settings a))
    cover_letter (pdf a) = (pdf a, inl e).
Proof.
  intros a font_name Hreg Hres.
  pose proof (app_run_invariant _ h E PDF_FILENAME
                (fun a ev => font_cache_step h E PDF_FILENAME a ev) evs
                (FileUploadApp_init loaded fonts module resume sample))
    as Hinv.
  cbv zeta in Hinv. fold a in Hinv. fold font_name in Hinv.
  assert (forall p, font_path (pdf a) = Some p ->
                    _resolve_font_path h font_name = inr p) as Hcache.
  { apply Hinv. done. }
  split; [done|].
  unfold _save_cover_letter_pdf, _register_font, bind, get, lift,
    set_font_path, check, ret, raise.
  rewrite bool_decide_eq_false_2 by done.
  destruct (font_path (pdf a)) as [p|] eqn:Hp.
  - specialize (Hcache p eq_refl). congruence.
  - by rewrite Hres.
Qed.

Lemma get_client_config E st : config (_get_client E st).1 = config st.
Proof.
  unfold _get_client. destruct (_CLIENT st); [done|].
  destruct (api_key_env st) as [[|c k]|]; [done| |done].
  by destruct (new_client E (c :: k)).
Qed.

Lemma generate_cover_letter_config E st resume_path job_description
    sample_path :
  config (generate_cover_letter E st resume_path job_description
            sample_path).1 = config st.
Proof.
  unfold generate_cover_letter.
  destruct (_extract_text_from_file E resume_path); [|done].
  assert (forall prompt,
            config (match _get_client E st with
                    | (st1, inl e) => (st1, inl e)
                    | (st1, inr client) =>
                        let rq := cover_letter_request (config st1) prompt in
                        match responses_create E client rq with
                        | Some output_text =>
                            (log_request rq st1, inr (strip output_text))
                        | None => (log_request rq st1, inl ApiError)
                        end
                    end).1 = config st) as H.
  { intros prompt. pose proof (get_client_config E st) as Hc.
    destruct (_get_client E st) as [st1 [e|client]]; [done|]. cbn [fst] in Hc.
    cbv zeta. by destruct (responses_create E client _). }
  destruct sample_path as [[|c p]|]; [apply H| |apply H].
  destruct (_extract_text_from_file E (String c p)); [apply H|done].
Qed.

Lemma generate_filename_config E st job_description :
  config (generate_filename E st job_description).1 = config st.
Proof.
  unfold generate_filename. pose proof (get_client_config E st) as Hc.
  destruct (_get_client E st) as [st1 [e|client]]; [done|]. cbn [fst] in Hc.
  cbv zeta. by destruct (responses_create E client _).
Qed.

Lemma get_dynamic_filename_config E PDF_FILENAME st cur :
  config (_get_dynamic_filename E PDF_FILENAME st cur).1 = config st.
Proof.
  unfold _get_dynamic_filename. destruct cur as [[|c jd]|]; [done| |done].
  apply generate_filename_config.
Qed.

Lemma update_api_key_config env_file read_ok write_ok api_key st :
  config (_update_api_key env_file read_ok write_ok api_key st).2 = config st.
Proof.
  unfold _update_api_key.
  destruct env_file; [destruct read_ok|]; by destruct write_ok.
Qed.

Lemma preferences_step h E PDF_FILENAME (module : llm_state) a ev :
  let inv := fun a =>
    let cfg := config (llm a) in
    _MODEL_NAME cfg = cover_letter_model (_settings a) /\
    _FILENAME_MODEL cfg = filename_model (_settings a) /\
    _MAX_TOKENS cfg = max_tokens (_settings a) /\
    _FILENAME_MAX_TOKENS cfg = filename_max_tokens (_settings a) /\
    _TEMPERATURE cfg = temperature (_settings a) /\
    _TOP_P cfg = top_p (_settings a) /\
    _COVER_LETTER_PROMPT cfg = _COVER_LETTER_PROMPT (config module) /\
    _FILENAME_PROMPT cfg = _FILENAME_PROMPT (config module) in
  inv a -> inv (app_step h E PDF_FILENAME a ev).
Proof.
  intros inv. unfold inv. cbv zeta. intros Ha.
  destruct ev as [s filepath|clipboard|i| |d env_file read_ok write_ok];
    cbn [app_step].
  - unfold _select_file. destruct filepath; exact Ha.
  - unfold _handle_paste_event.
    destruct (_generation_in_progress a); [exact Ha|].
    destruct (resume_file a) as [[|c p]|]; try exact Ha.
    destruct clipboard as [jd|]; [|exact Ha].
    destruct (strip_is_empty jd); exact Ha.
  - destruct (workers a !! i) as [j|]; [|exact Ha].
    unfold _generate_cover_letter. cbn [llm _settings].
    rewrite generate_cover_letter_config. exact Ha.
  - destruct (callbacks a) as [|[j [e|cover_letter]] rest];
      [exact Ha..|].
    unfold _on_generation_succeeded.
    cbn [llm _settings pdf _current_job_description].
    destruct (_register_font h (s_font_name (_settings a)) (pdf a)).2;
      [exact Ha|].
    rewrite get_dynamic_filename_config. exact Ha.
  - unfold save_preferences.
    destruct (numeric_vars d) as [[[[[? ?] ?] ?] ?]|]; [|exact Ha].
    unfold _apply_llm_settings. cbn [llm _settings config _MODEL_NAME
      _FILENAME_MODEL _MAX_TOKENS _FILENAME_MAX_TOKENS _TEMPERATURE _TOP_P
      _COVER_LETTER_PROMPT _FILENAME_PROMPT cover_letter_model
      filename_model max_tokens filename_max_tokens temperature top_p].
    destruct (strip (api_key_var d)); [by intuition|].
    rewrite update_api_key_config. by intuition.
Qed.

(** X23. The generator always works with the preferences in force: after
    start-up and after every handler its model names, token limits and
    sampling parameters are those of the settings, and its two prompts
    are the ones it was imported with. *)
Theorem llm_follows_preferences (h : host) (E : llm_env)
    (PDF_FILENAME : text) (loaded : settings) (fonts : gset string)
    (module : llm_state) (resume sample : option string)
    (evs : list action) :
  let a := app_run h E PDF_FILENAME
             (FileUploadApp_init loaded fonts module resume sample) evs in
  let cfg := config (llm a) in
  _MODEL_NAME cfg = cover_letter_model (_settings a) /\
  _FILENAME_MODEL cfg = filename_model (_settings a) /\
  _MAX_TOKENS cfg = max_tokens (_settings a) /\
  _FILENAME_MAX_TOKENS cfg = filename_max_tokens (_settings a) /\
  _TEMPERATURE cfg = temperature (_settings a) /\
  _TOP_P cfg = top_p (_settings a) /\
  _COVER_LETTER_PROMPT cfg = _COVER_LETTER_PROMPT (config module) /\
  _FILENAME_PROMPT cfg = _FILENAME_PROMPT (config module).
Proof.
  exact (app_run_invariant _ h E PDF_FILENAME
           (fun a ev => preferences_step h E PDF_FILENAME module a ev) evs
           (FileUploadApp_init loaded fonts module resume sample)
           (conj eq_refl (conj eq_refl (conj eq_refl (conj eq_refl
              (conj eq_refl (conj eq_refl (conj eq_refl eq_refl)))))))).
Qed.

End Model.

Arguments SetFont {coord}.
Arguments DrawString {coord}.
Arguments SetFillColorRGB {coord}.
Arguments SetStrokeColorRGB {coord}.
Arguments LinkURL {coord}.
Arguments Line {coord}.
Arguments ShowPage {coord}.
Arguments Save {coord}.
Arguments text_runs {coord}.
Arguments link_rects {coord}.
Arguments canvas {coord}.
Arguments registered {coord}.
Arguments font_path {coord}.
Arguments resume_file {coord}.
Arguments sample_file {coord}.
Arguments _generation_in_progress {coord}.
Arguments _current_job_description {coord}.
Arguments _settings {coord}.
Arguments pdf {coord}.
Arguments llm {coord}.
Arguments workers {coord}.
Arguments callbacks {coord}.
Arguments FileUploadApp_init {coord}.
Arguments jobs {coord}.

(** ** The text generator *)

Lemma lstrip_pad p s :
  Forall (fun c => isspace c = true) p -> lstrip (p ++ s) = lstrip s.
Proof. induction 1 as [|c p Hc _ IH]; [done|]. simpl. by rewrite Hc. Qed.

Lemma lstrip_head s :
  match lstrip s with c :: _ => isspace c = false | [] => True end.
Proof.
  induction s as [|c s IH]; [done|]. simpl.
  destruct (isspace c) eqn:E; [done|]. done.
Qed.

Lemma lstrip_fixed c s : isspace c = false -> lstrip (c :: s) = c :: s.
Proof. intros H. simpl. by rewrite H. Qed.

Lemma lstrip_idem s : lstrip (lstrip s) = lstrip s.
Proof.
  pose proof (lstrip_head s) as H. destruct (lstrip s) as [|c t]; [done|].
  by apply lstrip_fixed.
Qed.

Lemma lstrip_all_space s :
  Forall (fun c => isspace c = true) s -> lstrip s = [].
Proof. induction 1 as [|c s Hc _ IH]; [done|]. simpl. by rewrite Hc. Qed.

Lemma lstrip_suffix s : exists p,
  s = p ++ lstrip s /\ Forall (fun c => isspace c = true) p.
Proof.
  induction s as [|c s (p & IH & Hp)]; [by exists []|]. simpl.
  destruct (isspace c) eqn:E.
  - exists (c :: p). split; [by rewrite <- app_comm_cons, <- IH|].
    by constructor.
  - by exists [].
Qed.

Lemma lstrip_app s t :
  lstrip s <> [] -> lstrip (s ++ t) = lstrip s ++ t.
Proof.
  induction s as [|c s IH]; [done|]. simpl.
  destruct (isspace c); [apply IH|done].
Qed.

Lemma rstrip_pad s p :
  Forall (fun c => isspace c = true) p -> rstrip (s ++ p) = rstrip s.
Proof.
  intros Hp. unfold rstrip. rewrite rev_app_distr, lstrip_pad; [done|].
  apply Forall_forall. intros c Hc. rewrite Forall_forall in Hp.
  apply Hp. by apply list_elem_of_In, in_rev, list_elem_of_In.
Qed.

Lemma rstrip_idem s : rstrip (rstrip s) = rstrip s.
Proof. unfold rstrip. by rewrite rev_involutive, lstrip_idem. Qed.

(** Stripping on the right keeps a first character that is no
    whitespace. *)
Lemma rstrip_keeps_head c s :
  isspace c = false -> exists t, rstrip (c :: s) = c :: t.
Proof.
  intros Hc. unfold rstrip. simpl.
  destruct (lstrip_suffix (rev s ++ [c])) as (p & Hp & Hsp).
  destruct (lstrip (rev s ++ [c])) as [|d u] eqn:E using rev_ind.
  - rewrite app_nil_r in Hp. rewrite <- Hp in Hsp.
    apply Forall_app in Hsp as [_ Hsp]. apply Forall_cons in Hsp as [Hsp _].
    congruence.
  - rewrite app_assoc in Hp.
    apply app_inj_tail in Hp as [_ <-].
    rewrite rev_app_distr. simpl. by eexists.
Qed.

Lemma strip_idem s : strip (strip s) = strip s.
Proof.
  unfold strip. pose proof (lstrip_head s) as H.
  destruct (lstrip s) as [|c t] eqn:E; [done|].
  destruct (rstrip_keeps_head c t H) as [u Hu].
  rewrite Hu, (lstrip_fixed c u H), <- Hu. apply rstrip_idem.
Qed.

Lemma strip_pad p1 s p2 :
  Forall (fun c => isspace c = true) p1 ->
  Forall (fun c => isspace c = true) p2 ->
  strip (p1 ++ s ++ p2) = strip s.
Proof.
  intros H1 H2. unfold strip. rewrite lstrip_pad by done.
  destruct (lstrip s) as [|c t] eqn:E.
  - destruct (lstrip_suffix s) as (p & Hp & Hsp).
    rewrite E, app_nil_r in Hp. subst p.
    rewrite lstrip_pad by done. by rewrite lstrip_all_space.
  - rewrite lstrip_app by (by rewrite E). rewrite E. by apply rstrip_pad.
Qed.

(** X14. The prompt depends on the resume and on the job description only
    through their stripped text: whitespace around either of them changes
    nothing. *)
Theorem prompt_ignores_padding (cfg : llm_config)
    (resume_text job_description p1 p2 p3 p4 : text)
    (sample_text : option text) :
  Forall (fun c => isspace c = true) (p1 ++ p2 ++ p3 ++ p4) ->
  _build_prompt cfg (p1 ++ resume_text ++ p2) (p3 ++ job_description ++ p4)
    sample_text =
  _build_prompt cfg resume_text job_description sample_text.
Proof.
  rewrite !Forall_app. intros (H1 & H2 & H3 & H4).
  unfold _build_prompt. by rewrite !strip_pad.
Qed.

Lemma get_client_effect E st :
  config (_get_client E st).1 = config st /\
  sent (_get_client E st).1 = sent st /\
  api_key_env (_get_client E st).1 = api_key_env st /\
  match (_get_client E st).2 with
  | inr client => _CLIENT (_get_client E st).1 = Some client
  | inl e => (_get_client E st).1 = st /\ _CLIENT st = None /\
             (e = RuntimeError \/ e = ClientError)
  end.
Proof.
  unfold _get_client. destruct (_CLIENT st) as [k|] eqn:Hc.
  { simpl. by rewrite Hc. }
  destruct (api_key_env st) as [[|c k]|] eqn:Hk.
  - simpl. repeat split; auto.
  - destruct (new_client E (c :: k)); simpl; repeat split; auto.
  - simpl. repeat split; auto.
Qed.

(** X15. How a call of [generate_cover_letter] ends.  A letter that is
    returned carries no whitespace at either end, and exactly one request
    was sent for it, with sampling parameters only when the model is
    [gpt-5.1].  When a file cannot be read, or no client can be had,
    the module state is untouched: nothing was sent.  In every case the
    configuration stays as it was and at most one request is sent. *)
Theorem generate_cover_letter_outcome (E : llm_env) (st : llm_state)
    (resume_path : string) (job_description : text)
    (sample_path : option string) :
  let r := generate_cover_letter E st resume_path job_description sample_path in
  config r.1 = config st /\
  match r.2 with
  | inr letter =>
      strip letter = letter /\
      exists rq, sent r.1 = sent st ++ [rq] /\
        (rq_temperature rq = None <->
           _MODEL_NAME (config st) <> "gpt-5.1"%string) /\
        (rq_top_p rq = None <->
           _MODEL_NAME (config st) <> "gpt-5.1"%string)
  | inl ApiError => exists rq, sent r.1 = sent st ++ [rq]
  | inl _ => r.1 = st
  end.
Proof.
  unfold generate_cover_letter.
  destruct (_extract_text_from_file E resume_path) as [resume_text|];
    [|done].
  assert (forall prompt,
    let r := match _get_client E st with
             | (st1, inl e) => (st1, inl e)
             | (st1, inr client) =>
                 let rq := cover_letter_request (config st1) prompt in
                 match responses_create E client rq with
                 | Some output_text =>
                     (log_request rq st1, inr (strip output_text))
                 | None => (log_request rq st1, inl ApiError)
                 end
             end in
    config r.1 = config st /\
    match r.2 with
    | inr letter =>
        strip letter = letter /\
        exists rq, sent r.1 = sent st ++ [rq] /\
          (rq_temperature rq = None <->
             _MODEL_NAME (config st) <> "gpt-5.1"%string) /\
          (rq_top_p rq = None <->
             _MODEL_NAME (config st) <> "gpt-5.1"%string)
    | inl ApiError => exists rq, sent r.1 = sent st ++ [rq]
    | inl _ => r.1 = st
    end) as Hsend.
  { intros prompt.
    destruct (get_client_effect E st) as (Hcfg & Hsent & _ & Hcl).
    destruct (_get_client E st) as [st1 [e|client]]; simpl in *.
    { destruct Hcl as (-> & _ & [-> | ->]); done. }
    destruct (responses_create E client _) as [out|]; simpl;
      (split; [done|]); rewrite Hsent; [|by eexists].
    split; [apply strip_idem|].
    eexists. split; [done|]. simpl. rewrite Hcfg.
    unfold _MODELS_WITH_SAMPLING.
    destruct (bool_decide _) eqn:Hb.
    - apply bool_decide_eq_true, list_elem_of_singleton in Hb.
      split; split; congruence.
    - apply bool_decide_eq_false in Hb.
      rewrite list_elem_of_singleton in Hb.
      split; split; congruence. }
  destruct sample_path as [[|a p]|]; cbn zeta.
  - apply Hsend.
  - destruct (_extract_text_from_file E (String a p)) as [t|]; [|done].
    apply Hsend.
  - apply Hsend.
Qed.

Lemma split_on_parts sep s :
  Forall (fun p => Forall (fun c => c ∈ s /\ c <> sep) p) (split_on sep s).
Proof.
  induction s as [|c s IH]; [by repeat constructor|]. simpl.
  assert (Forall (fun p => Forall (fun c' => c' ∈ c :: s /\ c' <> sep) p)
            (split_on sep s)) as IH'.
  { eapply Forall_impl; [exact IH|]. intros p Hp.
    eapply Forall_impl; [exact Hp|]. intros c' [? ?]. split; [by right|done]. }
  destruct (N.eqb_spec c sep) as [->|Hne].
  - by constructor.
  - destruct (split_on sep s) as [|p ps]; [by repeat constructor|].
    apply Forall_cons in IH' as [Hp Hps]. constructor; [|done].
    constructor; [|done]. split; [by left|done].
Qed.

Lemma spaced_word b p t :
  p <> [] -> Forall (fun c => c <> UNDERSCORE) p ->
  spaced false t -> spaced b (p ++ t).
Proof.
  intros Hne Hp Ht. revert b Hne.
  induction Hp as [|c p Hc _ IH]; intros b Hne; [done|].
  simpl. destruct (N.eqb_spec c UNDERSCORE); [done|].
  destruct p as [|d p]; [done|]. by apply IH.
Qed.

Lemma spaced_joined ps :
  Forall (fun p => p <> [] /\ Forall (fun c => c <> UNDERSCORE) p) ps ->
  spaced false (flat_map (fun q => [UNDERSCORE] ++ q) ps).
Proof.
  induction 1 as [|p ps [Hne Hp] _ IH]; [done|].
  simpl. split; [done|]. by apply spaced_word.
Qed.

Lemma spaced_join parts :
  Forall (fun p => p <> [] /\ Forall (fun c => c <> UNDERSCORE) p) parts ->
  spaced true (join_with [UNDERSCORE] parts).
Proof.
  destruct 1 as [|p ps [Hne Hp] Hps]; [done|].
  simpl. apply spaced_word; [done..|]. by apply spaced_joined.
Qed.

Lemma spaced_take n : forall b s, spaced b s -> spaced b (take n s).
Proof.
  induction n as [|n IH]; intros b s H; [done|].
  destruct s as [|c s]; [done|]. simpl in *.
  destruct (c =? UNDERSCORE)%N; [|by apply IH].
  destruct H. split; [done|]. by apply IH.
Qed.

Lemma spaced_lookup s :
  forall b, spaced b s ->
    (b = true -> head s <> Some UNDERSCORE) /\
    (forall i, s !! i = Some UNDERSCORE -> s !! S i <> Some UNDERSCORE).
Proof.
  induction s as [|c s IH]; intros b H; [done|]. simpl in H.
  destruct (N.eqb_spec c UNDERSCORE) as [->|Hne].
  - destruct H as [-> H]. destruct (IH _ H) as [Hh Ht]. split; [done|].
    intros [|i] Hi; simpl in *.
    + rewrite <- head_lookup. by apply Hh.
    + by apply Ht.
  - destruct (IH _ H) as [_ Ht]. split; [simpl; congruence|].
    intros [|i] Hi; simpl in *; [congruence|]. by apply Ht.
Qed.

Lemma join_with_chars (P : char -> Prop) sep parts :
  Forall P sep -> Forall (Forall P) parts -> Forall P (join_with sep parts).
Proof.
  intros Hsep [|p ps Hp Hps]; [done|]. simpl.
  apply Forall_app. split; [done|].
  induction Hps as [|q qs Hq _ IH]; [done|]. simpl.
  rewrite !Forall_app. done.
Qed.

(** What every generated file name looks like. *)
Lemma generate_filename_shape E st job_description :
  let name := (generate_filename E st job_description).2 in
  name <> [] /\ length name <= 40 /\
  Forall (fun c => isalnum E c = true \/ c = UNDERSCORE) name /\
  spaced true name.
Proof.
  assert (COVER_LETTER <> [] /\ length COVER_LETTER <= 40 /\
          Forall (fun c => isalnum E c = true \/ c = UNDERSCORE) COVER_LETTER /\
          spaced true COVER_LETTER) as Hdef.
  { split; [done|]. split; [simpl; lia|]. split.
    - repeat (constructor; [first [by left | by right]|]). constructor.
    - simpl. done. }
  unfold generate_filename.
  destruct (_get_client E st) as [st1 [e|client]]; [done|].
  destruct (responses_create E client _) as [out|]; [|done]. cbn [snd].
  destruct (str_lower E (strip out)) as [|r0 raw] eqn:Hraw; [done|].
  set (mapped := map _ (r0 :: raw)).
  set (parts := filter _ (split_on UNDERSCORE mapped)).
  assert (Forall (fun c => isalnum E c = true \/ c = UNDERSCORE) mapped) as Hm.
  { unfold mapped. apply Forall_forall. intros c Hc.
    apply list_elem_of_In, in_map_iff in Hc as (d & <- & _).
    destruct (isalnum E d) eqn:Hd; simpl; [by left|].
    destruct (N.eqb_spec d UNDERSCORE); [by right|by right]. }
  assert (Forall (fun p => p <> [] /\
                    Forall (fun c => c ∈ mapped /\ c <> UNDERSCORE) p) parts)
    as Hparts.
  { unfold parts. apply Forall_forall. intros p Hp.
    apply list_elem_of_filter in Hp as [Hne Hp]. split; [done|].
    pose proof (split_on_parts UNDERSCORE mapped) as Hs.
    rewrite Forall_forall in Hs. by apply Hs. }
  assert (Forall (fun c => isalnum E c = true \/ c = UNDERSCORE)
            (join_with [UNDERSCORE] parts)) as Hj.
  { apply join_with_chars; [by repeat constructor; right|].
    eapply Forall_impl; [exact Hparts|]. intros p [_ Hp].
    eapply Forall_impl; [exact Hp|]. intros c [Hc _].
    rewrite Forall_forall in Hm. by apply Hm. }
  assert (spaced true (join_with [UNDERSCORE] parts)) as Hsp.
  { apply spaced_join. eapply Forall_impl; [exact Hparts|].
    intros p [Hne Hp]. split; [done|].
    eapply Forall_impl; [exact Hp|]. by intros c [_ ?]. }
  pose proof (length_take (join_with [UNDERSCORE] parts) 40) as Hlen.
  pose proof (spaced_take 40 _ _ Hsp) as Hsp'.
  pose proof (Forall_take _ 40 _ Hj) as Hj'.
  destruct (take 40 (join_with [UNDERSCORE] parts)) as [|c name]; [done|].
  split; [done|]. split; [lia|]. done.
Qed.

(** X16. A generated file name is never empty, is at most 40 characters
    long, consists only of underscores and of characters that
    [str.isalnum] accepts, does not start with an underscore and has no
    two underscores in a row; whatever the model answers, and also when
    the request fails. *)
Theorem generated_filename_safe (E : llm_env) (st : llm_state)
    (job_description : text) :
  let name := (generate_filename E st job_description).2 in
  name <> [] /\ length name <= 40 /\
  Forall (fun c => isalnum E c = true \/ c = UNDERSCORE) name /\
  head name <> Some UNDERSCORE /\
  (forall i, name !! i = Some UNDERSCORE -> name !! S i <> Some UNDERSCORE).
Proof.
  destruct (generate_filename_shape E st job_description)
    as (Hne & Hlen & Hch & Hsp).
  destruct (spaced_lookup _ _ Hsp) as [Hh Ht].
  repeat split; [done..|by apply Hh|exact Ht].
Qed.

(** X17. With a job description stored, the name of the output file is a
    generated base name followed by [.pdf]: between 5 and 44 characters,
    and free of slashes and backslashes, so the file lands directly in
    the output directory. *)
Theorem dynamic_filename_in_directory (E : llm_env) (PDF_FILENAME : text)
    (st : llm_state) (c : char) (jd : text) :
  let name := (_get_dynamic_filename E PDF_FILENAME st (Some (c :: jd))).2 in
  T ".pdf" `suffix_of` name /\
  5 <= length name <= 44 /\
  (chr "/" ∉ name) /\ (chr "\" ∉ name).
Proof.
  destruct (generate_filename_shape E st (c :: jd))
    as (Hne & Hlen & Hch & _).
  unfold _get_dynamic_filename. cbn [snd].
  set (base := (generate_filename E st (c :: jd)).2) in *.
  split; [by apply suffix_app_r|].
  split.
  { rewrite length_app. destruct base; [done|]. simpl in *. lia. }
  rewrite Forall_forall in Hch.
  split; intros Hin; apply elem_of_app in Hin as [Hin|Hin].
  - by destruct (Hch _ Hin).
  - vm_compute in Hin. by repeat (apply elem_of_cons in Hin as [?|Hin]; [done|]);
      apply elem_of_nil in Hin.
  - by destruct (Hch _ Hin).
  - vm_compute in Hin. by repeat (apply elem_of_cons in Hin as [?|Hin]; [done|]);
      apply elem_of_nil in Hin.
Qed.

(** ** The key file *)

Lemma splitlines_aux_line l : forall cur rest,
  Forall (fun c => is_linebreak c = false) l ->
  splitlines_aux cur (l ++ rest) = splitlines_aux (rev l ++ cur) rest.
Proof.
  induction l as [|c l IH]; intros cur rest Hl; [done|].
  apply Forall_cons in Hl as [Hc Hl]. simpl. rewrite Hc.
  rewrite IH by done. by rewrite <- app_assoc.
Qed.

Lemma splitlines_aux_newline cur rest :
  splitlines_aux cur (NL ++ rest) = rev cur :: splitlines_aux [] rest.
Proof. by destruct rest. Qed.

Lemma splitlines_aux_joined ps : forall p,
  Forall (Forall (fun c => is_linebreak c = false)) ps ->
  splitlines_aux (rev p) (flat_map (fun q => NL ++ q) ps) = chomp (p :: ps).
Proof.
  induction ps as [|q qs IH]; intros p Hps.
  - simpl. destruct p as [|c p]; [done|].
    destruct (rev (c :: p)) as [|d r] eqn:Hr.
    + apply (f_equal length) in Hr. rewrite length_rev in Hr. done.
    + by rewrite <- Hr, rev_involutive.
  - apply Forall_cons in Hps as [Hq Hqs].
    change (flat_map (fun q0 => NL ++ q0) (q :: qs))
      with (NL ++ (q ++ flat_map (fun q0 => NL ++ q0) qs)).
    rewrite splitlines_aux_newline, rev_involutive.
    rewrite splitlines_aux_line by done. rewrite app_nil_r.
    rewrite IH by done. done.
Qed.

Lemma splitlines_join L :
  Forall (Forall (fun c => is_linebreak c = false)) L ->
  splitlines (join_with NL L) = chomp L.
Proof.
  destruct L as [|p ps]; [done|]. intros [Hp Hps]%Forall_cons.
  unfold splitlines. simpl join_with.
  rewrite splitlines_aux_line by done. rewrite app_nil_r.
  by apply splitlines_aux_joined.
Qed.

Lemma splitlines_aux_lines n : forall s cur,
  length s <= n ->
  Forall (fun c => is_linebreak c = false) cur ->
  Forall (Forall (fun c => is_linebreak c = false)) (splitlines_aux cur s).
Proof.
  induction n as [|n IH]; intros s cur Hn Hcur.
  - destruct s; [|simpl in Hn; lia]. simpl.
    destruct cur; [done|]. constructor; [|done]. by apply Forall_rev.
  - destruct s as [|c s]; simpl.
    { destruct cur; [done|]. constructor; [|done]. by apply Forall_rev. }
    simpl in Hn. destruct (is_linebreak c) eqn:Hc.
    + constructor; [by apply Forall_rev|].
      destruct s as [|d s]; [done|].
      destruct ((c =? 13)%N && (d =? 10)%N);
        apply IH; simpl in *; try lia; done.
    + apply IH; [lia|]. by constructor.
Qed.

Lemma splitlines_lines s :
  Forall (Forall (fun c => is_linebreak c = false)) (splitlines s).
Proof. by apply (splitlines_aux_lines (length s)). Qed.

Lemma elem_of_chomp x L : x ∈ chomp L -> x ∈ L.
Proof.
  induction L as [|l L IH]; [done|]. simpl.
  destruct L as [|l' L].
  - destruct l; [by intros ?%elem_of_nil|done].
  - intros [->|?]%elem_of_cons; [by left|right; by apply IH].
Qed.

Lemma chomp_elem_of x L : x ∈ L -> x <> [] -> x ∈ chomp L.
Proof.
  intros Hx Hne. induction L as [|l L IH]; [done|]. simpl.
  destruct L as [|l' L].
  - apply list_elem_of_singleton in Hx as ->. destruct l; [done|by left].
  - apply elem_of_cons in Hx as [->|Hx]; [by left|right; by apply IH].
Qed.

Lemma filter_chomp (P : text -> Prop) `{!forall l, Decision (P l)} L :
  (forall l, P l -> l <> []) -> filter P (chomp L) = filter P L.
Proof.
  intros HP. induction L as [|l L IH]; [done|]. simpl.
  destruct L as [|l' L].
  - destruct l; [|done]. rewrite filter_cons_False; [done|].
    intros Hl%HP. done.
  - rewrite !(filter_cons _ l). by rewrite IH.
Qed.

(** The loop replaces every key line in place and appends the key line
    when it met none. *)
Lemma new_key_lines_spec api_key lines :
  new_key_lines api_key lines =
  map (fun line => if startswith KEY_PREFIX line
                   then KEY_PREFIX ++ api_key else line) lines
  ++ (if existsb (startswith KEY_PREFIX) lines then []
      else [KEY_PREFIX ++ api_key]).
Proof.
  unfold new_key_lines.
  match goal with |- context [foldl ?f0 _ _] => set (f := f0) end.
  match goal with |- context [map ?g0 _] => set (g := g0) end.
  assert (forall ls acc b,
            foldl f (acc, b) ls =
            (acc ++ map g ls, b || existsb (startswith KEY_PREFIX) ls)) as H.
  { induction ls as [|l ls IH]; intros acc b; cbn [foldl map existsb].
    - by rewrite app_nil_r, orb_false_r.
    - assert (f (acc, b) l = (acc ++ [g l], b || startswith KEY_PREFIX l))
        as ->.
      { unfold f, g. destruct (startswith KEY_PREFIX l);
          [by rewrite orb_true_r|by rewrite orb_false_r]. }
      by rewrite IH, <- app_assoc, orb_assoc. }
  rewrite H. cbn [orb app]. destruct (existsb _ lines); [|done].
  by rewrite app_nil_r.
Qed.

Lemma startswith_key_line api_key :
  startswith KEY_PREFIX (KEY_PREFIX ++ api_key) = true.
Proof. apply startswith_prefix. by apply prefix_app_r. Qed.

(** X18. After a successful update with a key that has no line break in
    it, the text written to the key file, taken line by line, contains
    the line of the new key, every line that starts with
    [OPENAI_API_KEY=] is that line, and the other non-empty lines are the
    ones the file had, in their order. *)
Theorem api_key_file_updated (env_file : option text) (read_ok write_ok : bool)
    (api_key : text) (st : llm_state) (written : text) :
  Forall (fun c => is_linebreak c = false) api_key ->
  (_update_api_key env_file read_ok write_ok api_key st).1 = Some written ->
  let other := fun l : text => l <> [] /\ startswith KEY_PREFIX l = false in
  KEY_PREFIX ++ api_key ∈ splitlines written /\
  (forall l, l ∈ splitlines written -> startswith KEY_PREFIX l = true ->
             l = KEY_PREFIX ++ api_key) /\
  filter other (splitlines written)
  = filter other (splitlines (default [] env_file)).
Proof.
  intros Hkey Hw other. unfold _update_api_key in Hw.
  assert (written =
          join_with NL (new_key_lines api_key
                          (splitlines (default [] env_file)))) as ->.
  { destruct env_file as [content|]; [destruct read_ok|];
      destruct write_ok; cbn [fst] in Hw; cbn [default from_option id];
      congruence. }
  set (lines := splitlines (default [] env_file)).
  pose proof (splitlines_lines (default [] env_file)) as Hlines.
  fold lines in Hlines.
  assert (Forall (fun c => is_linebreak c = false) (KEY_PREFIX ++ api_key))
    as Hkl.
  { apply Forall_app. split; [|done]. by repeat constructor. }
  rewrite new_key_lines_spec.
  match goal with |- context [map ?g0 _] => set (g := g0) end.
  rewrite splitlines_join.
  2:{ apply Forall_app. split.
      - apply Forall_forall. intros l Hl.
        apply list_elem_of_In, in_map_iff in Hl as (l0 & <- & Hl0).
        unfold g. destruct (startswith KEY_PREFIX l0); [done|].
        rewrite Forall_forall in Hlines. by apply Hlines, list_elem_of_In.
      - destruct (existsb _ lines); by repeat constructor. }
  assert (KEY_PREFIX ++ api_key <> []) as Hne by done.
  split; [|split].
  - apply chomp_elem_of; [|done].
    destruct (existsb (startswith KEY_PREFIX) lines) eqn:Hex.
    + apply existsb_exists in Hex as (l & Hl & Hs).
      apply elem_of_app. left. apply list_elem_of_In, in_map_iff.
      exists l. split; [|done]. unfold g. by rewrite Hs.
    + apply elem_of_app. right. by left.
  - intros l Hl%elem_of_chomp Hs.
    apply elem_of_app in Hl as [Hl|Hl].
    + apply list_elem_of_In, in_map_iff in Hl as (l0 & <- & _).
      unfold g in *. destruct (startswith KEY_PREFIX l0) eqn:Hs0; [done|].
      congruence.
    + destruct (existsb _ lines); [by apply elem_of_nil in Hl|].
      by apply list_elem_of_singleton in Hl.
  - rewrite filter_chomp by (by intros l [? _]).
    rewrite filter_app.
    match goal with |- _ ++ ?X = _ => assert (X = []) as -> end.
    { destruct (existsb _ lines); [done|].
      rewrite filter_cons_False; [done|].
      intros [_ H]. by rewrite startswith_key_line in H. }
    rewrite app_nil_r. clear Hlines.
    induction lines as [|l ls IH]; [done|]. cbn [map].
    destruct (startswith KEY_PREFIX l) eqn:Hs.
    + assert (g l = KEY_PREFIX ++ api_key) as ->
        by (unfold g; by rewrite Hs).
      rewrite (filter_cons_False _ (KEY_PREFIX ++ api_key)),
        (filter_cons_False _ l); [exact IH| |].
      * intros [_ H]. congruence.
      * intros [_ H]. by rewrite startswith_key_line in H.
    + assert (g l = l) as -> by (unfold g; by rewrite Hs).
      rewrite !filter_cons.
      destruct (decide (other l)); [f_equal; exact IH|exact IH].
Qed.

(** X19. A successful key update takes effect at once: the next request
    builds its client from the new key, whatever client was cached, and
    fails when the key is empty or the client cannot be built.  When the
    file could not be read or written, the generator is left as it was,
    with its old key and old client. *)
Theorem api_key_update_takes_effect (E : llm_env) (env_file : option text)
    (read_ok write_ok : bool) (api_key : text) (st : llm_state) :
  let r := _update_api_key env_file read_ok write_ok api_key st in
  match r.1 with
  | Some _ =>
      read_ok || bool_decide (env_file = None) = true /\ write_ok = true /\
      config r.2 = config st /\ sent r.2 = sent st /\
      (_get_client E r.2).2 =
        match api_key with
        | [] => inl RuntimeError
        | _ :: _ => if new_client E api_key then inr api_key
                    else inl ClientError
        end
  | None => r.2 = st
  end.
Proof.
  unfold _update_api_key.
  destruct env_file as [content|]; [destruct read_ok|];
    destruct write_ok; simpl; try done.
  - repeat split; try done. unfold _get_client. simpl.
    destruct api_key; [done|]. by destruct (new_client E _).
  - repeat split; try done.
    + by rewrite orb_true_r.
    + unfold _get_client. simpl.
      destruct api_key; [done|]. by destruct (new_client E _).
Qed.

(** ** Examples at concrete inputs *)

Lemma url_link_target_witness :
  exists l, l ∈ _find_links_in_text ascii_only (T "visit b.com/x") /\
    span l = (6, 13) /\
    l_text l = slice (T "visit b.com/x") 6 13 /\
    (T "http://" `prefix_of` l_text l \/ T "https://" `prefix_of` l_text l ->
       l_url l = l_text l) /\
    (~ (T "http://" `prefix_of` l_text l \/ T "https://" `prefix_of` l_text l) ->
       l_url l = T "https://" ++ l_text l).
Proof.
  apply (url_link_target ascii_only (T "visit b.com/x") (6, 13)).
  - vm_compute. left.
  - vm_compute. reflexivity.
Defined.

Lemma page_loop_cursor_witness :
  let log :=
    (page_loop ascii_only Z Z.add id fixed_pitch one_line "Helvetica" 300
       [97; 10; 98; 10; 10; 99; 10; 100; 10; 101; 10; 102]%N).2 in
  log = [ Drawn 720 [97%N]; Drawn 418 [98%N]; Blank 116; Break (-186);
          Drawn 720 [99%N]; Drawn 418 [100%N]; Drawn 116 [101%N];
          Break (-186); Drawn 720 [102%N] ] /\
  (-2 < 300)%Z /\
  descends 300 log /\
  breaks_at_margin 300 log.
Proof.
  intros log. split; [vm_compute; reflexivity|]. split; [lia|].
  apply (page_loop_cursor ascii_only Z Z.add id fixed_pitch one_line
           "Helvetica" 300
           [97; 10; 98; 10; 10; 99; 10; 100; 10; 101; 10; 102]%N).
  lia.
Defined.

(** Two ways in which the property fails as first worded.  With
    [font_size = -2] the leading is zero: the two lines of the document
    [a], newline, [b] are drawn at the same height, so the positions on
    the page are not strictly decreasing.  At 12 points, 47 lines leave
    the cursor at 62, below the margin; the blank paragraph that follows
    is processed there with no page break before it, and the break comes
    only after it, at 48. *)
Lemma page_loop_cursor_refuted :
  (let log :=
     (page_loop ascii_only Z Z.add id fixed_pitch one_line "Helvetica" (-2)
        [97; 10; 98]%N).2 in
   log = [Drawn 720 [97%N]; Drawn 720 [98%N]] /\
   ~ descends (-2) log) /\
  (let log :=
     (page_loop ascii_only Z Z.add id fixed_pitch one_line "Helvetica" 12
        (concat (replicate 47 [97; 10]%N) ++ [10; 97]%N)).2 in
   log !! 46 = Some (Drawn 76 [97%N]) /\
   log !! 47 = Some (Blank 62) /\
   log !! 48 = Some (Break 48) /\
   log !! 49 = Some (Drawn 720 [97%N]) /\
   (62 <= MARGIN)%Z /\
   ~ used_above_margin log).
Proof.
  split.
  - intros log. split; [vm_compute; reflexivity|].
    intros H.
    destruct (H 0 1 (Drawn 720 [97%N]) (Drawn 720 [98%N])) as [_ Hlt].
    + lia.
    + vm_compute. reflexivity.
    + vm_compute. reflexivity.
    + intros k e Hk He.
      assert (k = 0 \/ k = 1) as [-> | ->] by lia;
        vm_compute in He; injection He as <-; reflexivity.
    + simpl in Hlt. lia.
  - intros log.
    assert (log !! 47 = Some (Blank 62)) as H47
      by (vm_compute; reflexivity).
    split; [vm_compute; reflexivity|]. split; [exact H47|].
    split; [vm_compute; reflexivity|]. split; [vm_compute; reflexivity|].
    split; [unfold MARGIN; lia|].
    intros H. apply list_elem_of_lookup_2 in H47.
    specialize (H (Blank 62) H47 eq_refl). unfold MARGIN in H. simpl in H.
    lia.
Qed.

Lemma unresolved_font_is_fatal_witness :
  _save_cover_letter_pdf ascii_only Z Z.add id fixed_pitch one_line
    bare_host "Helvetica" 12 (T "Hi")
    {| registered := ∅; font_path := None; canvas := [] |} =
  ({| registered := ∅; font_path := None; canvas := [] |},
   inl FileNotFoundError).
Proof.
  apply (unresolved_font_is_fatal ascii_only Z Z.add id fixed_pitch one_line
           bare_host "Helvetica" 12 (T "Hi")
           {| registered := ∅; font_path := None; canvas := [] |}).
  - simpl. apply not_elem_of_empty.
  - reflexivity.
  - left. simpl. apply not_elem_of_nil.
Defined.

(** A font that is already in the registry is not looked up again: on a
    host where the family cannot be resolved the render still succeeds and
    draws. *)
Lemma registered_font_skips_lookup :
  _resolve_font_path bare_host "Helvetica" = inl FileNotFoundError /\
  let r := _save_cover_letter_pdf ascii_only Z Z.add id fixed_pitch one_line
             bare_host "Helvetica" 12 (T "Hi")
             {| registered := {[ "Helvetica"%string ]}; font_path := None;
                canvas := [] |} in
  r.2 = inr tt /\
  canvas r.1 =
    [ SetFont "Helvetica" 12; DrawString 72%Z 720%Z (T "Hi"); Save ].
Proof. vm_compute. repeat split; reflexivity. Qed.

Lemma link_run_drawn_witness :
  exists pre post x,
    let width := fixed_pitch (T "a@b.com") "Helvetica" 12 in
    (_draw_line_with_links ascii_only Z Z.add fixed_pitch
       (T "see a@b.com") 72%Z 720 "Helvetica" 12).1 =
    pre ++
    [ SetFillColorRGB LINK_BLUE;
      SetFont "Helvetica" 12;
      DrawString x 720 (T "a@b.com");
      LinkURL (T "mailto:a@b.com")
        (x, 720 - 2, Z.add x width, 720 + 12)%Z;
      SetStrokeColorRGB LINK_BLUE;
      Line x (720 - 1)%Z (Z.add x width) (720 - 1)%Z;
      SetFillColorRGB BLACK;
      SetStrokeColorRGB BLACK ] ++ post.
Proof.
  apply (link_run_drawn ascii_only Z Z.add fixed_pitch (T "see a@b.com")
           72%Z 720 "Helvetica" 12 (4, 11, T "a@b.com", T "mailto:a@b.com")).
  vm_compute. left.
Defined.

Lemma drawn_runs_cover_line_witness :
  concat (text_runs
            (_draw_line_with_links ascii_only Z Z.add fixed_pitch
               (T "see a@b.com or b.com/x today") 72%Z 720 "Helvetica" 12).1)
  = T "see a@b.com or b.com/x today".
Proof.
  apply (drawn_runs_cover_line ascii_only Z Z.add fixed_pitch
           (T "see a@b.com or b.com/x today") 72%Z 720 "Helvetica" 12).
  vm_compute. discriminate.
Defined.

Lemma simpleSplit_idempotent_witness :
  simpleSplit_spec Z id fixed_pitch Z.leb (T "aa bb") "Helvetica" 1 5
    = [T "aa bb"] /\
  (fits Z id fixed_pitch Z.leb "Helvetica" 1 5 (T "aa bb") = true \/
   split (T "aa bb") = [T "aa bb"]).
Proof.
  apply (simpleSplit_idempotent Z id fixed_pitch Z.leb (T "aa  bb cc")
           "Helvetica" 1 5 (T "aa bb")).
  vm_compute. left.
Defined.

(** ** Examples for the further properties *)

(** A line without a dot has no link. *)
Lemma find_links_need_dot_witness :
  _find_links_in_text ascii_only (T "mail me at work") = [].
Proof.
  apply (find_links_need_dot ascii_only (T "mail me at work")).
  apply (bool_decide_unpack _). vm_compute. exact I.
Defined.

(** A line without an at sign: only the URL pattern contributes. *)
Lemma find_links_without_at_witness :
  _find_links_in_text ascii_only (T "see b.com") =
  map (url_link (T "see b.com"))
    (finditer ascii_only (URL_PATTERN ascii_only) (T "see b.com")).
Proof.
  apply (find_links_without_at ascii_only (T "see b.com")).
  apply (bool_decide_unpack _). vm_compute. exact I.
Defined.

(** The first two lines of the short letter are on one page, one leading
    apart. *)
Lemma page_capacity_witness :
  (page_loop ascii_only Z Z.add id fixed_pitch one_line "Helvetica" 12
     letter_sample).2 !! 1 = Some (Drawn 706 (T "jane@example.com")) /\
  (Z.of_nat (1 - 0) * (12 + 2) < page_top - MARGIN)%Z.
Proof.
  split; [vm_compute; reflexivity|].
  apply (page_capacity ascii_only Z Z.add id fixed_pitch one_line
           "Helvetica" 12 letter_sample 0 1 (Drawn 720 (T "Jane Doe"))
           706 (T "jane@example.com")).
  - lia.
  - lia.
  - vm_compute. reflexivity.
  - vm_compute. reflexivity.
  - intros k e Hk. destruct k as [|[|k]]; [| |lia].
    + vm_compute. by intros [= <-].
    + vm_compute. by intros [= <-].
Defined.

(** The short letter has four steps and fits on one page. *)
Lemma short_document_single_page_witness :
  length (steps_of one_line "Helvetica" 12 letter_sample) = 4 /\
  Forall (fun e => is_break e = false)
    (page_loop ascii_only Z Z.add id fixed_pitch one_line "Helvetica" 12
       letter_sample).2.
Proof.
  split; [vm_compute; reflexivity|].
  apply (short_document_single_page ascii_only Z Z.add id fixed_pitch
           one_line "Helvetica" 12 letter_sample).
  - lia.
  - vm_compute. reflexivity.
Defined.

(** The font of the Linux host resolves to its file. *)
Lemma resolved_font_exists_witness :
  _resolve_font_path linux_host "DejaVu Sans"
  = inr "/usr/share/fonts/DejaVuSans.ttf"%string /\
  path_exists linux_host "/usr/share/fonts/DejaVuSans.ttf" = true /\
  "DejaVu Sans"%string ∈ map unescape_spaces (families linux_host).
Proof.
  split; [vm_compute; reflexivity|].
  apply (resolved_font_exists linux_host "DejaVu Sans"
           "/usr/share/fonts/DejaVuSans.ttf").
  vm_compute. reflexivity.
Defined.

(** The file found on the Linux host has the stem without spaces. *)
Lemma font_file_shape_witness :
  exists d stem ext,
    d ∈ [ project_root linux_host +:+ "/fonts";
          home linux_host +:+ "/Library/Fonts";
          "/Library/Fonts"; "/System/Library/Fonts";
          "/System/Library/Fonts/Supplemental"; "/usr/share/fonts";
          "/usr/local/share/fonts" ]%string /\
    path_exists linux_host d = true /\
    stem ∈ [ "DejaVu Sans"; replace_char " " "" "DejaVu Sans";
             replace_char " " "-" "DejaVu Sans";
             "DejaVu Sans" +:+ " Regular";
             "DejaVu Sans" +:+ "-Regular" ]%string /\
    ext ∈ [ ".ttf"; ".otf"; ".ttc" ]%string /\
    "/usr/share/fonts/DejaVuSans.ttf"%string
    = (d +:+ "/" +:+ stem +:+ ext)%string /\
    path_exists linux_host "/usr/share/fonts/DejaVuSans.ttf" = true.
Proof.
  apply (font_file_shape linux_host "DejaVu Sans"
           "/usr/share/fonts/DejaVuSans.ttf").
  - reflexivity.
  - vm_compute. reflexivity.
Defined.

(** Registering the font of the Linux host, then registering it again
    on a host without fonts. *)
Lemma register_font_idempotent_witness :
  let w' := {| registered := ∅ ∪ {[ "DejaVu Sans"%string ]};
               font_path := Some "/usr/share/fonts/DejaVuSans.ttf"%string;
               canvas := @nil (op Z) |} in
  "DejaVu Sans"%string ∈ registered w' /\
  registered {| registered := ∅; font_path := None;
                canvas := @nil (op Z) |} ⊆ registered w' /\
  canvas w' = [] /\
  _register_font Z bare_host "DejaVu Sans" w' = (w', inr tt).
Proof.
  apply (register_font_idempotent Z linux_host bare_host "DejaVu Sans"
           {| registered := ∅; font_path := None; canvas := [] |}).
  vm_compute. reflexivity.
Defined.

(** Blanks and newlines around the resume and the job description. *)
Lemma prompt_ignores_padding_witness :
  _build_prompt (config module_defaults)
    ([32%N] ++ T "Jane Doe" ++ [10%N]) ([] ++ T "Engineer" ++ [9%N]) None =
  _build_prompt (config module_defaults) (T "Jane Doe") (T "Engineer") None.
Proof.
  apply (prompt_ignores_padding (config module_defaults)
           (T "Jane Doe") (T "Engineer") [32%N] [10%N] [] [9%N] None).
  by repeat constructor.
Defined.

(** The key file as first created, updated with a key. *)
Lemma api_key_file_updated_witness :
  (_update_api_key (Some (T "OPENAI_API_KEY=" ++ NL)) true true (T "sk-new")
     module_defaults).1 = Some (T "OPENAI_API_KEY=sk-new") /\
  let other := fun l : text => l <> [] /\ startswith KEY_PREFIX l = false in
  KEY_PREFIX ++ T "sk-new" ∈ splitlines (T "OPENAI_API_KEY=sk-new") /\
  (forall l, l ∈ splitlines (T "OPENAI_API_KEY=sk-new") ->
             startswith KEY_PREFIX l = true -> l = KEY_PREFIX ++ T "sk-new") /\
  filter other (splitlines (T "OPENAI_API_KEY=sk-new"))
  = filter other
      (splitlines (default [] (Some (T "OPENAI_API_KEY=" ++ NL)))).
Proof.
  split; [vm_compute; reflexivity|].
  apply (api_key_file_updated (Some (T "OPENAI_API_KEY=" ++ NL)) true true
           (T "sk-new") module_defaults (T "OPENAI_API_KEY=sk-new")).
  - by repeat constructor.
  - vm_compute. reflexivity.
Defined.

(** A paste on a fresh application, and the thread it starts: the file
    is named after the pasted job. *)
Lemma pdf_named_after_its_job_witness :
  let a := app_run ascii_only Z Z.add id fixed_pitch one_line bare_host
             canned_env (T "cover_letter.pdf")
             (FileUploadApp_init (DEFAULT_SETTINGS bare_host) ∅
                module_defaults (Some "resume.txt"%string) None)
             [Paste (Some (T "Engineer at Acme")); WorkerRuns 0] in
  _get_dynamic_filename canned_env (T "cover_letter.pdf") (llm a)
    (_current_job_description a)
  = ((generate_filename canned_env (llm a) (T "Engineer at Acme")).1,
     (generate_filename canned_env (llm a) (T "Engineer at Acme")).2
     ++ T ".pdf").
Proof.
  apply (pdf_named_after_its_job ascii_only Z Z.add id fixed_pitch one_line
           bare_host canned_env (T "cover_letter.pdf")
           (DEFAULT_SETTINGS bare_host) ∅ module_defaults
           (Some "resume.txt"%string) None
           [Paste (Some (T "Engineer at Acme")); WorkerRuns 0]
           {| j_resume_path := "resume.txt";
              j_job_description := T "Engineer at Acme";
              j_sample_path := None |}
           (inr (T "Acme Engineer")) []).
  vm_compute. reflexivity.
Defined.

(** After a generation and a change of font to one the host does not
    have, the next render fails in the lookup. *)
Lemma unresolved_font_fatal_in_app_witness :
  let a := app_run ascii_only Z Z.add id fixed_pitch one_line linux_host
             canned_env (T "cover_letter.pdf")
             (FileUploadApp_init
                {| cover_letter_model := "gpt-5.1";
                   filename_model := "gpt-5.1";
                   max_tokens := 1200; filename_max_tokens := 60;
                   temperature := 3 # 10; top_p := 95 # 100;
                   s_font_name := "DejaVu Sans"; s_font_size := 12;
                   output_path := "/app" |}
                ∅ module_defaults (Some "resume.txt"%string) None)
             [Paste (Some (T "Engineer at Acme")); WorkerRuns 0; Callback;
              SavePreferences
                {| api_key_var := []; cover_model_var := "gpt-5";
                   filename_model_var := "gpt-5";
                   numeric_vars := Some (1200, 60, 3 # 10, 95 # 100, 11)%Z;
                   font_var := "Arial"; output_path_var := "/app" |}
                None true true] in
  s_font_name (_settings a) = "Arial"%string /\
  font_path (pdf a) = None /\
  _save_cover_letter_pdf ascii_only Z Z.add id fixed_pitch one_line
    linux_host (s_font_name (_settings a)) (s_font_size (_settings a))
    (T "Dear team") (pdf a)
  = (pdf a, inl FileNotFoundError).
Proof.
  intros a. split; [vm_compute; reflexivity|].
  split; [vm_compute; reflexivity|].
  refine (proj2 (unresolved_font_fatal_in_app ascii_only Z Z.add id
                   fixed_pitch one_line linux_host canned_env
                   (T "cover_letter.pdf") _ ∅ module_defaults
                   (Some "resume.txt"%string) None _ (T "Dear team")
                   FileNotFoundError _ _)).
  - apply (bool_decide_unpack _). vm_compute. exact I.
  - vm_compute. reflexivity.
Defined.

(** The fonts of the PDF library are registered with the first canvas:
    after one render with the installed font, a render with Helvetica
    configured succeeds on a host where Helvetica resolves to no file. *)
Example builtin_font_after_first_render :
  let a := app_run ascii_only Z Z.add id fixed_pitch one_line linux_host
             canned_env (T "cover_letter.pdf")
             (FileUploadApp_init
                {| cover_letter_model := "gpt-5.1";
                   filename_model := "gpt-5.1";
                   max_tokens := 1200; filename_max_tokens := 60;
                   temperature := 3 # 10; top_p := 95 # 100;
                   s_font_name := "DejaVu Sans"; s_font_size := 12;
                   output_path := "/app" |}
                ∅ module_defaults (Some "resume.txt"%string) None)
             [Paste (Some (T "Engineer at Acme")); WorkerRuns 0; Callback;
              SavePreferences
                {| api_key_var := []; cover_model_var := "gpt-5";
                   filename_model_var := "gpt-5";
                   numeric_vars := Some (1200, 60, 3 # 10, 95 # 100, 11)%Z;
                   font_var := "Helvetica"; output_path_var := "/app" |}
                None true true] in
  s_font_name (_settings a) = "Helvetica"%string /\
  _resolve_font_path linux_host "Helvetica" = inl FileNotFoundError /\
  (_save_cover_letter_pdf ascii_only Z Z.add id fixed_pitch one_line
     linux_host "Helvetica" 11 (T "Dear team") (pdf a)).2 = inr tt.
Proof. vm_compute. repeat split; reflexivity. Qed.
